(** * The HTTP policy pipeline of azure-core

    A shallow embedding of [azure/core/pipeline/_base.py]:
    [cleanup_kwargs_for_transport], [_SansIOHTTPPolicyRunner],
    [_TransportRunner] and [Pipeline].

    Python objects that the code mutates live in an explicit store
    ([Mem]); every call of a policy hook, of the transport and of
    [prepare_multipart_body] is logged as an [Event], so that the order
    of calls can be stated.  Exceptions are results ([Raise]).  The
    thread pool of the multipart preparation runs its threads in the
    order that a scheduler chooses; the choices are part of the
    store. *)

From stdpp Require Import base option list gmap strings.
From Stdlib Require Import ZArith.

Set Default Proof Using "Type".
Open Scope string_scope.
Open Scope list_scope.

(** ** Python values, exceptions, option bags *)

Inductive PyValue :=
| VNone
| VBool (b : bool)
| VInt (z : Z)
| VStr (s : string).

#[global] Instance PyValue_eq_dec : EqDecision PyValue.
Proof. solve_decision. Defined.

(** [except Exception] catches instances of [Exception]; the other
    subclasses of [BaseException] ([KeyboardInterrupt], [SystemExit],
    [GeneratorExit]) pass through it. *)
Inductive ExnClass := ExceptionClass | BaseExceptionOnly.

#[global] Instance ExnClass_eq_dec : EqDecision ExnClass.
Proof. solve_decision. Defined.

Record PyExn := mkExn { exn_class : ExnClass; exn_msg : string }.

#[global] Instance PyExn_eq_dec : EqDecision PyExn.
Proof. solve_decision. Defined.

Definition is_Exception (e : PyExn) : bool :=
  match exn_class e with ExceptionClass => true | BaseExceptionOnly => false end.

(** A [Dict[str, Any]]: the keyword arguments of a call, the option bag
    of a context. *)
Abbreviation Options := (gmap string PyValue).

(** The state of the objects the hooks may mutate besides the option bag
    (request headers, a policy's own attributes), as named cells. *)
Abbreviation Heap := (gmap string PyValue).

Inductive Result (A : Type) :=
| Ok (a : A)
| Raise (e : PyExn).
Arguments Ok {A} a.
Arguments Raise {A} e.

(** ** Requests, responses, policies, transports *)

(** A hook of a SansIO policy, run on a [PipelineRequest]: it may mutate
    the heap and the option bag of the request's context, and returns
    [None] or raises.  [_await_result] calls the hook and raises
    [TypeError] when the hook returned an awaitable; that is one of the
    ways a hook call raises. *)
Definition Hook := Heap -> Options -> Heap * Options * option PyExn.

Record HttpResponse := mkResponse {
  status_code : Z;
  reason : string;
  body : string
}.

#[global] Instance HttpResponse_eq_dec : EqDecision HttpResponse.
Proof. solve_decision. Defined.

(** A SansIO policy.  Its hooks receive the [PipelineRequest]; an HTTP
    request object is known to a hook by its identity [req_id], its
    mutable content (headers, body) being cells of the heap. *)
Record SansIOHTTPPolicy := mkSansIO {
  sp_name : string;
  on_request : nat -> Hook;
  on_response : nat -> HttpResponse -> Hook;
  on_exception : nat -> Hook
}.

(** [request.multipart_mixed_info] is [None] or the tuple
    [(requests, policies, boundary, kwargs)]; [_base.py] reads the items
    0, 1 and 3.  [serialize_parts] is what serializing the parts into
    the body of the request does to the heap. *)
Inductive HttpRequest := mkRequest {
  req_id : nat;
  multipart_mixed_info :
    option (list HttpRequest * list SansIOHTTPPolicy * string * Options);
  serialize_parts : Heap -> Heap * option PyExn
}.

(** The transport: [send(request, **kwargs)], [__enter__] and
    [__exit__] with the exception details.  It acts on the heap only: the keyword
    arguments it receives are a copy of the option bag. *)
Record HttpTransport := mkTransport {
  tr_name : string;
  tr_send : nat -> Options -> Heap -> Heap * Result HttpResponse;
  tr_enter : Heap -> Heap * option PyExn;
  tr_exit : option PyExn -> Heap -> Heap * option PyExn
}.

(** [PipelineContext(transport, **kwargs)]: the transport in use (or
    [None]) and the option bag [options].  A context is a mutable
    object: it lives in the store and is referred to by its address. *)
Record PipelineContext := mkContext {
  ctx_transport : option HttpTransport;
  options : Options
}.

Record PipelineRequest := mkPipelineRequest {
  http_request : HttpRequest;
  context : nat
}.

Record PipelineResponse := mkPipelineResponse {
  resp_http_request : HttpRequest;
  http_response : HttpResponse;
  resp_context : nat
}.

(** A chaining policy ([HTTPPolicy]) has a [send] of its own, which may
    call [self.next.send] any number of times and act on what it gets
    back.  Its [send] is a program over these operations. *)
Inductive PolicyProg :=
| PReturn (r : PipelineResponse)
| PRaise (e : PyExn)
| PHeap (f : Heap -> Heap) (k : Heap -> PolicyProg)
| PNext (req : PipelineRequest) (k : Result PipelineResponse -> PolicyProg).

(** [hp_addr] is the identity of the policy object: the same object may
    be listed more than once. *)
Record HTTPPolicy := mkHTTPPolicy {
  hp_addr : nat;
  hp_send : PipelineRequest -> PolicyProg
}.

(** ** The chain *)

(** The objects of [_impl_policies]: a [_SansIOHTTPPolicyRunner] made by
    the constructor (a new object, with the policy it wraps), or a
    chaining policy of the caller. *)
Inductive NodeId :=
| RunnerObj (n : nat)
| PolicyObj (a : nat).

#[global] Instance NodeId_eq_dec : EqDecision NodeId.
Proof. solve_decision. Defined.

#[global] Instance NodeId_countable : Countable NodeId.
Proof.
  refine (inj_countable'
    (fun i => match i with RunnerObj n => inl n | PolicyObj a => inr a end)
    (fun s => match s with inl n => RunnerObj n | inr a => PolicyObj a end) _).
  by intros [].
Defined.

Inductive Node :=
| RunnerNode (n : nat) (_policy : SansIOHTTPPolicy)
| PolicyNode (p : HTTPPolicy).

Definition node_id (nd : Node) : NodeId :=
  match nd with
  | RunnerNode n _ => RunnerObj n
  | PolicyNode p => PolicyObj (hp_addr p)
  end.

(** What a [next] attribute holds: a node, or a [_TransportRunner] with
    its [_sender]. *)
Inductive Link :=
| LinkNode (nd : Node)
| LinkTransportRunner (_sender : HttpTransport).

(** ** The store and the log of calls *)

Inductive Event :=
| EvOnRequest (policy : string) (req : nat)
| EvOnResponse (policy : string) (req : nat)
| EvOnException (policy : string) (req : nat)
| EvTransportSend (transport : string) (req : nat) (kwargs : Options)
| EvTransportEnter (transport : string)
| EvTransportExit (transport : string) (exc_details : option PyExn)
| EvPrepareMultipartBody (req : nat).

#[global] Instance Event_eq_dec : EqDecision Event.
Proof. solve_decision. Defined.

(** [contexts]: the context objects, by address (a new one is appended);
    [nexts]: the [next] attribute of each node object; [runners]: the
    number of runner objects made so far; [schedule]: the choices that
    the scheduler of the threads makes from now on, in order (which of
    the threads that can go on does so next).  Only the thread pool of
    the multipart preparation reads it: the statements that hold for
    every store hold for every way of scheduling the threads. *)
Record Mem := mkMem {
  heap : Heap;
  contexts : list PipelineContext;
  nexts : gmap NodeId Link;
  runners : nat;
  schedule : list nat
}.

(** A computation: from a store to a store, the calls made and a value
    or an exception.  [None] is not a behaviour of the program: the
    model is stuck (a dangling address, or the fuel of [send_link]). *)
Definition M (A : Type) := Mem -> option (Mem * list Event * Result A).

Definition ret {A} (a : A) : M A := fun m => Some (m, [], Ok a).
Definition raise {A} (e : PyExn) : M A := fun m => Some (m, [], Raise e).
Definition stuck {A} : M A := fun _ => None.

Definition bind {A B} (c : M A) (f : A -> M B) : M B := fun m =>
  match c m with
  | None => None
  | Some (m1, evs1, Raise e) => Some (m1, evs1, Raise e)
  | Some (m1, evs1, Ok a) =>
      match f a m1 with
      | None => None
      | Some (m2, evs2, r) => Some (m2, evs1 ++ evs2, r)
      end
  end.

Notation "x <- c1 ;; c2" := (bind c1 (fun x => c2))
  (at level 100, c1 at next level, right associativity).
Notation "c1 ;;; c2" := (bind c1 (fun _ => c2))
  (at level 100, c2 at level 200, right associativity).

Definition emit (ev : Event) : M unit := fun m => Some (m, [ev], Ok tt).

(** [try: c  except Exception: handler; raise]. *)
Definition try_except_Exception_reraise {A} (c : M A) (handler : M unit) : M A :=
  fun m =>
  match c m with
  | None => None
  | Some (m1, evs1, Ok a) => Some (m1, evs1, Ok a)
  | Some (m1, evs1, Raise e) =>
      if is_Exception e then
        match handler m1 with
        | None => None
        | Some (m2, evs2, Ok _) => Some (m2, evs1 ++ evs2, Raise e)
        | Some (m2, evs2, Raise e') => Some (m2, evs1 ++ evs2, Raise e')
        end
      else Some (m1, evs1, Raise e)
  end.

(** [try: c  finally-like]: the outcome of [c] as a value, for the
    [with] statement, which runs [__exit__] on every outcome. *)
Definition attempt {A} (c : M A) : M (Result A) := fun m =>
  match c m with
  | None => None
  | Some (m1, evs1, r) => Some (m1, evs1, Ok r)
  end.

Definition of_result {A} (r : Result A) : M A := fun m => Some (m, [], r).

(** *** Operations on the store *)

Definition set_heap (h : Heap) (m : Mem) : Mem :=
  mkMem h (contexts m) (nexts m) (runners m) (schedule m).

Definition set_options (ctx : nat) (o : Options) (m : Mem) : Mem :=
  mkMem (heap m)
        (alter (fun c => mkContext (ctx_transport c) o) ctx (contexts m))
        (nexts m) (runners m) (schedule m).

Definition set_next (i : NodeId) (l : Link) (m : Mem) : Mem :=
  mkMem (heap m) (contexts m) (<[i := l]> (nexts m)) (runners m) (schedule m).

(** [request.context.options] *)
Definition get_options (ctx : nat) : M Options := fun m =>
  match contexts m !! ctx with
  | None => None
  | Some c => Some (m, [], Ok (options c))
  end.

Definition put_options (ctx : nat) (o : Options) : M unit := fun m =>
  Some (set_options ctx o m, [], Ok tt).

(** [PipelineContext(transport, **kwargs)]: a new context object. *)
Definition new_context (transport : option HttpTransport) (kwargs : Options)
  : M nat := fun m =>
  Some (mkMem (heap m) (contexts m ++ [mkContext transport kwargs])
              (nexts m) (runners m) (schedule m),
        [], Ok (length (contexts m))).

(** [self.next] *)
Definition get_next (i : NodeId) : M (option Link) := fun m =>
  Some (m, [], Ok (nexts m !! i)).

(** [_await_result(hook, request, ...)]: the call of a hook on the
    pipeline request whose context is [ctx], logged as [ev]. *)
Definition _await_result (ev : Event) (ctx : nat) (hook : Hook) : M unit :=
  fun m =>
  match contexts m !! ctx with
  | None => None
  | Some c =>
      let '(h, o, r) := hook (heap m) (options c) in
      Some (set_heap h (set_options ctx o m), [ev],
            match r with None => Ok tt | Some e => Raise e end)
  end.

(** [sender.send(http_request, **kwargs)] *)
Definition transport_send (sender : HttpTransport) (req : HttpRequest)
    (kwargs : Options) : M HttpResponse := fun m =>
  let '(h, r) := tr_send sender (req_id req) kwargs (heap m) in
  Some (set_heap h m, [EvTransportSend (tr_name sender) (req_id req) kwargs], r).

Definition transport_enter (t : HttpTransport) : M unit := fun m =>
  let '(h, r) := tr_enter t (heap m) in
  Some (set_heap h m, [EvTransportEnter (tr_name t)],
        match r with None => Ok tt | Some e => Raise e end).

Definition transport_exit (t : HttpTransport) (exc_details : option PyExn)
  : M unit := fun m =>
  let '(h, r) := tr_exit t exc_details (heap m) in
  Some (set_heap h m, [EvTransportExit (tr_name t) exc_details],
        match r with None => Ok tt | Some e => Raise e end).

(** ** [cleanup_kwargs_for_transport] *)

Definition kwargs_to_remove : list string :=
  ["insecure_domain_change"; "enable_cae"; "tracing_options"].

(** The dictionary after the call: [kwargs.pop(key, None)] for each key,
    unless the dictionary is empty. *)
Definition cleanup_kwargs_for_transport (kwargs : Options) : Options :=
  if decide (kwargs = ∅) then kwargs
  else foldl (fun d key => delete key d) kwargs kwargs_to_remove.

(** ** [_SansIOHTTPPolicyRunner] *)

Module SansIOHTTPPolicyRunner.

(** [next_send] is [self.next.send]. *)
Definition send (_policy : SansIOHTTPPolicy)
    (next_send : PipelineRequest -> M PipelineResponse)
    (request : PipelineRequest) : M PipelineResponse :=
  let rid := req_id (http_request request) in
  _await_result (EvOnRequest (sp_name _policy) rid) (context request)
                (on_request _policy rid) ;;;
  response <-
    try_except_Exception_reraise (next_send request)
      (_await_result (EvOnException (sp_name _policy) rid) (context request)
                     (on_exception _policy rid)) ;;
  _await_result (EvOnResponse (sp_name _policy) rid) (context request)
                (on_response _policy rid (http_response response)) ;;;
  ret response.

End SansIOHTTPPolicyRunner.

(** ** [_TransportRunner] *)

Module TransportRunner.

Definition send (_sender : HttpTransport) (request : PipelineRequest)
  : M PipelineResponse :=
  o <- get_options (context request) ;;
  put_options (context request) (cleanup_kwargs_for_transport o) ;;;
  kwargs <- get_options (context request) ;;
  raw <- transport_send _sender (http_request request) kwargs ;;
  ret (mkPipelineResponse (http_request request) raw (context request)).

End TransportRunner.

(** ** Running a chain *)

(** A chaining policy's [send], given [self.next.send]. *)
Fixpoint run_prog (next_send : PipelineRequest -> M PipelineResponse)
    (p : PolicyProg) : M PipelineResponse :=
  match p with
  | PReturn r => ret r
  | PRaise e => raise e
  | PHeap f k => fun m =>
      let h := f (heap m) in run_prog next_send (k h) (set_heap h m)
  | PNext req k => r <- attempt (next_send req) ;; run_prog next_send (k r)
  end.

(** Calling [x.send] on an attribute [next] that was never set. *)
Definition AttributeError : PyExn :=
  mkExn ExceptionClass "'NoneType' object has no attribute 'send'".

(** [link.send(request)], following the [next] attributes in the store.
    [fuel] bounds the depth of the calls. *)
Fixpoint send_link (fuel : nat) (link : Link) (request : PipelineRequest)
  : M PipelineResponse :=
  match fuel with
  | O => stuck
  | S fuel' =>
      match link with
      | LinkTransportRunner sender => TransportRunner.send sender request
      | LinkNode nd =>
          let next_send := fun rq =>
            nx <- get_next (node_id nd) ;;
            match nx with
            | Some l => send_link fuel' l rq
            | None => raise AttributeError
            end in
          match nd with
          | RunnerNode _ policy =>
              SansIOHTTPPolicyRunner.send policy next_send request
          | PolicyNode p => run_prog next_send (hp_send p request)
          end
      end
  end.

(** ** The thread pool *)

(** [concurrent.futures.ThreadPoolExecutor], as [_base.py] uses it.
    [executor.map(fn, requests)] submits a call of [fn] for each
    request, all at once; the workers of the pool run the calls side by
    side; the results are read in the order of the list.  The first
    exception that is read is raised again, after the calls that have
    not started are cancelled, and after those that have started are
    over: the [with] statement waits for them.

    A thread takes a step at a time, and a call of a hook is one step:
    the threads interleave between the calls of the hooks.  Any call
    that has not started may start: the pool takes them in the order of
    the list and has a bounded number of workers, so that every order in
    which the pool runs the threads is one of the orders here. *)

(** A call of [prepare_requests(req)] handed to the pool; [policies]
    and [pipeline_options] are the variables of the enclosing call that
    it reads.  It has not started; or it is in the recursive call for a
    request with parts, waiting for the pool made there; or it is in the
    loop over the policies, with the context that it made and the
    policies still to call; or it has ended, with a result or an
    exception; or it was cancelled before it started. *)
Inductive Thread :=
| TPending (req : HttpRequest) (policies : list SansIOHTTPPolicy)
           (pipeline_options : Options)
| TWaiting (inner : list Thread) (req : HttpRequest)
           (policies : list SansIOHTTPPolicy) (pipeline_options : Options)
| TRunning (req : HttpRequest) (ctx : nat)
           (remaining : list SansIOHTTPPolicy)
| TDone (r : Result unit)
| TCancelled.

Definition is_final (t : Thread) : bool :=
  match t with TDone _ | TCancelled => true | _ => false end.

Definition is_pending (t : Thread) : bool :=
  match t with TPending _ _ _ => true | _ => false end.

Definition pool_final (pool : list Thread) : bool := forallb is_final pool.

(** [future.result()] on a cancelled future.  It is not reached: a call
    is cancelled only after an exception has been read. *)
Definition CancelledError : PyExn := mkExn ExceptionClass "cancelled".

(** Reading the results in the order of the list: [None] while the
    result that is waited for is not there. *)
Fixpoint collected (pool : list Thread) : option (Result unit) :=
  match pool with
  | [] => Some (Ok tt)
  | TDone (Ok _) :: rest => collected rest
  | TDone (Raise e) :: _ => Some (Raise e)
  | TCancelled :: _ => Some (Raise CancelledError)
  | _ :: _ => None
  end.

(** The outcome of the [with] statement, once every thread is over. *)
Definition joined (pool : list Thread) : option (Result unit) :=
  if pool_final pool then collected pool else None.

(** An exception has been read and some call has not started: the
    thread that reads the results cancels the calls that have not
    started ([future.cancel()] does nothing to the others). *)
Definition can_cancel (pool : list Thread) : bool :=
  match collected pool with
  | Some (Raise _) => existsb is_pending pool
  | _ => false
  end.

Definition cancel_pending (pool : list Thread) : list Thread :=
  (fun t => if is_pending t then TCancelled else t) <$> pool.

(** The threads that are not over. *)
Definition live_count (pool : list Thread) : nat :=
  length (List.filter (fun t => negb (is_final t)) pool).

(** The choice of the scheduler among [n] threads: the head of
    [schedule], modulo [n]; the first thread once the schedule is used
    up. *)
Definition pick (n : nat) : M nat := fun m =>
  match schedule m with
  | [] => Some (m, [], Ok 0)
  | c :: rest =>
      Some (mkMem (heap m) (contexts m) (nexts m) (runners m) rest, [],
            Ok (c mod n))
  end.

Section Executor.
Variable step : Thread -> M Thread.

(** The [k]-th of the threads that are not over takes a step. *)
Fixpoint step_nth (k : nat) (pool : list Thread) : M (list Thread) :=
  match pool with
  | [] => ret []
  | t :: rest =>
      if is_final t then rest' <- step_nth k rest ;; ret (t :: rest')
      else
        match k with
        | O => t' <- step t ;; ret (t' :: rest)
        | S k' => rest' <- step_nth k' rest ;; ret (t :: rest')
        end
  end.

(** A step of the pool: the scheduler picks one of the threads that are
    not over, or the thread that reads the results when it has calls to
    cancel. *)
Definition step_pool_with (pool : list Thread) : M (list Thread) :=
  k <- pick (live_count pool + (if can_cancel pool then 1 else 0)) ;;
  if can_cancel pool && bool_decide (k = live_count pool)
  then ret (cancel_pending pool)
  else step_nth k pool.

End Executor.

(** [executor.map(prepare_requests, requests)]: one call of
    [prepare_requests] is submitted for each request, all of them before
    any result is read. *)
Definition submit_all (requests : list HttpRequest)
    (policies : list SansIOHTTPPolicy) (pipeline_options : Options)
  : list Thread :=
  (fun req => TPending req policies pipeline_options) <$> requests.

(** The number of steps that the call of [prepare_requests] on a
    request takes at most, for [n] policies: it starts, its pool runs,
    it goes on, it calls the hooks, it returns. *)
Fixpoint request_work (n : nat) (req : HttpRequest) : nat :=
  match req with
  | mkRequest _ None _ => 2 + n
  | mkRequest _ (Some (requests, policies, _, _)) _ =>
      3 + n + list_sum (request_work (length policies) <$> requests)
  end.

Fixpoint thread_work (t : Thread) : nat :=
  match t with
  | TPending req policies _ => request_work (length policies) req
  | TWaiting inner _ policies _ =>
      2 + length policies + list_sum (thread_work <$> inner)
  | TRunning _ _ remaining => 1 + length remaining
  | TDone _ | TCancelled => 0
  end.

Definition pool_work (pool : list Thread) : nat :=
  list_sum (thread_work <$> pool).

(** ** [Pipeline] *)

(** An item of the [policies] argument: a SansIO policy; a chaining
    policy, true as objects are unless their class says otherwise;
    [None]; a chaining policy object whose truth value is false (its
    class defines [__bool__] or [__len__]).  The last two are skipped by
    [elif policy]. *)
Inductive PolicyArg :=
| ArgSansIO (p : SansIOHTTPPolicy)
| ArgHTTP (p : HTTPPolicy)
| ArgNone
| ArgFalseHTTP (p : HTTPPolicy).

Module Pipeline.

Record t := mkPipeline {
  _impl_policies : list Node;
  _transport : HttpTransport
}.

(** The first loop of [__init__]: one pass over [policies], appending
    to [_impl_policies]; [n] counts the runner objects of the store. *)
Fixpoint wrap_policies (policies : list PolicyArg) (n : nat)
  : list Node * nat :=
  match policies with
  | [] => ([], n)
  | ArgSansIO p :: rest =>
      let '(l, n') := wrap_policies rest (S n) in (RunnerNode n p :: l, n')
  | ArgHTTP p :: rest =>
      let '(l, n') := wrap_policies rest n in (PolicyNode p :: l, n')
  | ArgNone :: rest => wrap_policies rest n
  | ArgFalseHTTP _ :: rest => wrap_policies rest n
  end.

(** [impl[index].next = impl[index + 1]] *)
Definition link_index (impl : list Node) (m : Mem) (index : nat) : Mem :=
  match impl !! index, impl !! (index + 1) with
  | Some nd, Some nd' => set_next (node_id nd) (LinkNode nd') m
  | _, _ => m
  end.

(** [Pipeline(transport, policies)] *)
Definition __init__ (transport : HttpTransport) (policies : list PolicyArg)
    (m : Mem) : t * Mem :=
  let '(impl, n) := wrap_policies policies (runners m) in
  let m0 := mkMem (heap m) (contexts m) (nexts m) n (schedule m) in
  let m1 := foldl (link_index impl) m0 (seq 0 (length impl - 1)) in
  let m2 :=
    match last impl with
    | Some nd => set_next (node_id nd) (LinkTransportRunner transport) m1
    | None => m1
    end in
  (mkPipeline impl transport, m2).

Definition __enter__ (self : t) : M t :=
  transport_enter (_transport self) ;;; ret self.

Definition __exit__ (self : t) (exc_details : option PyExn) : M unit :=
  transport_exit (_transport self) exc_details.

(** The loop of [prepare_requests] on its own: [on_request] of each
    policy in turn on one pipeline request, no other thread acting in
    between. *)
Fixpoint apply_on_request (policies : list SansIOHTTPPolicy)
    (pipeline_request : PipelineRequest) : M unit :=
  match policies with
  | [] => ret tt
  | policy :: rest =>
      let rid := req_id (http_request pipeline_request) in
      _await_result (EvOnRequest (sp_name policy) rid)
                    (context pipeline_request) (on_request policy rid) ;;;
      apply_on_request rest pipeline_request
  end.

(** One step of a call of [prepare_requests(req)].  A call that has not
    started starts: it enters the recursive call, which submits the
    calls for the parts of [req], or, for a request without parts, makes
    its context.  A call that waits for the pool of its recursive call
    lets a thread of that pool take a step ([step_pool_with]); once that
    pool is over it takes the exception that was read, or makes its
    context.  A call in the loop over the policies calls the next hook;
    an exception of the hook ends the call.  After the last policy the
    call returns. *)
Fixpoint prepare_requests_step (t : Thread) : M Thread :=
  match t with
  | TPending req policies pipeline_options =>
      match multipart_mixed_info req with
      | Some (requests', policies', _, pipeline_options') =>
          ret (TWaiting (submit_all requests' policies' pipeline_options')
                        req policies pipeline_options)
      | None =>
          ctx <- new_context None pipeline_options ;;
          ret (TRunning req ctx policies)
      end
  | TWaiting inner req policies pipeline_options =>
      match joined inner with
      | Some (Ok _) =>
          ctx <- new_context None pipeline_options ;;
          ret (TRunning req ctx policies)
      | Some (Raise e) => ret (TDone (Raise e))
      | None =>
          inner' <- step_pool_with prepare_requests_step inner ;;
          ret (TWaiting inner' req policies pipeline_options)
      end
  | TRunning req ctx [] => ret (TDone (Ok tt))
  | TRunning req ctx (policy :: rest) =>
      r <- attempt (_await_result (EvOnRequest (sp_name policy) (req_id req))
                                  ctx (on_request policy (req_id req))) ;;
      ret (match r with
           | Ok _ => TRunning req ctx rest
           | Raise e => TDone (Raise e)
           end)
  | TDone _ | TCancelled => ret t
  end.

Definition step_pool : list Thread -> M (list Thread) :=
  step_pool_with prepare_requests_step.

(** [with ThreadPoolExecutor() as executor: [_ for _ in executor.map(...)]]
    once the calls are submitted: the threads take steps, as the
    scheduler has it, until all are over; the outcome is what reading
    the results in the order of the list gives.  [fuel] bounds the
    number of steps. *)
Fixpoint run_pool (fuel : nat) (pool : list Thread) : M (Result unit) :=
  match joined pool with
  | Some r => ret r
  | None =>
      match fuel with
      | O => stuck
      | S fuel' => pool' <- step_pool pool ;; run_pool fuel' pool'
      end
  end.

(** [_prepare_multipart_mixed_request].  The fuel is the number of steps
    that the calls can take at most ([pool_work]). *)
Definition _prepare_multipart_mixed_request (request : HttpRequest) : M unit :=
  match multipart_mixed_info request with
  | None => ret tt
  | Some (requests, policies, _, pipeline_options) =>
      let pool := submit_all requests policies pipeline_options in
      r <- run_pool (pool_work pool) pool ;;
      of_result r
  end.

(** Modelled from the spec: [HttpRequest.prepare_multipart_body] is
    not among the sources.  The spec has the parts serialized into the
    composite body after the pre-send hooks, for the requests that
    carry a bundle of sub-requests only. *)
Definition prepare_multipart_body (request : HttpRequest) : M unit :=
  match multipart_mixed_info request with
  | None => ret tt
  | Some _ => fun m =>
      let '(h, r) := serialize_parts request (heap m) in
      Some (set_heap h m, [EvPrepareMultipartBody (req_id request)],
            match r with None => Ok tt | Some e => Raise e end)
  end.

Definition _prepare_multipart (request : HttpRequest) : M unit :=
  _prepare_multipart_mixed_request request ;;;
  prepare_multipart_body request.

Definition first_node (self : t) : Link :=
  match _impl_policies self with
  | nd :: _ => LinkNode nd
  | [] => LinkTransportRunner (_transport self)
  end.

(** [run(request, **kwargs)].  The depth of the calls of [send] is at
    most the number of nodes plus one. *)
Definition run (self : t) (request : HttpRequest) (kwargs : Options)
  : M PipelineResponse :=
  _prepare_multipart request ;;;
  context <- new_context (Some (_transport self)) kwargs ;;
  let pipeline_request := mkPipelineRequest request context in
  send_link (S (length (_impl_policies self))) (first_node self)
            pipeline_request.

(** [with self as p: body(p)].  [__exit__] returns [None]: an
    exception of the body is never suppressed. *)
Definition with_ {A} (self : t) (body : t -> M A) : M A :=
  p <- __enter__ self ;;
  r <- attempt (body p) ;;
  __exit__ self (match r with Ok _ => None | Raise e => Some e end) ;;;
  of_result r.

End Pipeline.

(** * Notions used in the statements *)

(** The keys of [kwargs_to_remove]. *)
Definition internal_key (key : string) : Prop := key ∈ kwargs_to_remove.

#[global] Instance internal_key_dec key : Decision (internal_key key).
Proof. unfold internal_key. apply _. Defined.

(** An option bag without any of the three keys. *)
Definition keys_absent (o : Options) : Prop :=
  forall key, internal_key key -> o !! key = None.

(** The option bag of the context at address [ctx]. *)
Definition options_at (m : Mem) (ctx : nat) : option Options :=
  options <$> contexts m !! ctx.

(** Every call logged by [c], from any store, satisfies [P]. *)
Definition emits {A} (P : Event -> Prop) (c : M A) : Prop :=
  forall m m' evs r, c m = Some (m', evs, r) -> Forall P evs.

(** [c] leaves the [next] attributes alone. *)
Definition keeps_nexts {A} (c : M A) : Prop :=
  forall m m' evs r, c m = Some (m', evs, r) -> nexts m' = nexts m.

(** The arguments of a call of the transport lack the three keys. *)
Definition clean_send (ev : Event) : Prop :=
  match ev with
  | EvTransportSend _ _ kwargs => keys_absent kwargs
  | _ => True
  end.

(** What [run] may log: calls of hooks, calls of the transport's [send]
    on arguments without the three keys, the serialization of a body;
    never the transport's [__enter__] or [__exit__]. *)
Definition run_event (ev : Event) : Prop :=
  match ev with
  | EvTransportSend _ _ kwargs => keys_absent kwargs
  | EvTransportEnter _ | EvTransportExit _ _ => False
  | _ => True
  end.

(** What [run] may do to the store besides the heap and the option bags:
    make new contexts. *)
Definition frame (m m' : Mem) : Prop :=
  nexts m' = nexts m /\ runners m' = runners m /\
  length (contexts m) <= length (contexts m').

Definition sound {A} (c : M A) : Prop :=
  forall m m' evs r, c m = Some (m', evs, r) ->
    frame m m' /\ Forall run_event evs.

(** ** Induction on requests and their sub-requests *)

Section HttpRequest_nested_ind.
Variable P : HttpRequest -> Prop.
Hypothesis simple : forall rid s, P (mkRequest rid None s).
Hypothesis composite : forall rid requests policies boundary kwargs s,
  Forall P requests ->
  P (mkRequest rid (Some (requests, policies, boundary, kwargs)) s).

Fixpoint HttpRequest_nested_ind (request : HttpRequest) : P request :=
  match request with
  | mkRequest rid None s => simple rid s
  | mkRequest rid (Some (requests, policies, boundary, kwargs)) s =>
      composite rid requests policies boundary kwargs s
        ((fix all (l : list HttpRequest) : Forall P l :=
            match l with
            | [] => @List.Forall_nil _ P
            | r :: l0 => @List.Forall_cons _ P r l0 (HttpRequest_nested_ind r) (all l0)
            end) requests)
  end.
End HttpRequest_nested_ind.

(** ** Sample objects, for concrete runs *)

Definition quiet : Hook := fun h o => (h, o, None).

Definition failing (e : PyExn) : Hook := fun h o => (h, o, Some e).

(** A policy whose hooks do nothing. *)
Definition quiet_policy (name : string) : SansIOHTTPPolicy :=
  mkSansIO name (fun _ => quiet) (fun _ _ => quiet) (fun _ => quiet).

Definition response_of (code : Z) : HttpResponse := mkResponse code "" "".

(** A transport that answers every request with the status [code]. *)
Definition answering_transport (code : Z) : HttpTransport :=
  mkTransport "transport"
    (fun _ _ h => (h, Ok (response_of code)))
    (fun h => (h, None)) (fun _ h => (h, None)).

Definition ConnectionError : PyExn := mkExn ExceptionClass "connection refused".
Definition KeyboardInterrupt : PyExn := mkExn BaseExceptionOnly "interrupted".
Definition ValueError : PyExn := mkExn ExceptionClass "malformed header".

(** A transport whose [send] raises [e]. *)
Definition raising_transport (e : PyExn) : HttpTransport :=
  mkTransport "transport"
    (fun _ _ h => (h, Raise e))
    (fun h => (h, None)) (fun _ h => (h, None)).

Definition plain_request (rid : nat) : HttpRequest :=
  mkRequest rid None (fun h => (h, None)).

Definition empty_store : Mem := mkMem ∅ [] ∅ 0 [].

(** Call options with two of the internal keys among them. *)
Definition sample_kwargs : Options :=
  <["timeout" := VInt 30]>
    (<["enable_cae" := VBool true]>
       (<["insecure_domain_change" := VBool true]> ∅)).

(** A store with one context, holding [sample_kwargs]. *)
Definition sample_store : Mem :=
  mkMem ∅ [mkContext None sample_kwargs] ∅ 0 [].

(** The log, the outcome and the final store of a computation. *)
Definition events_of {A} (o : option (Mem * list Event * Result A))
  : list Event :=
  match o with Some (_, evs, _) => evs | None => [] end.

Definition result_of {A} (o : option (Mem * list Event * Result A))
  : option (Result A) :=
  match o with Some (_, _, r) => Some r | None => None end.

Definition store_of {A} (o : option (Mem * list Event * Result A))
  : option Mem :=
  match o with Some (m, _, _) => Some m | None => None end.

(** The pipeline over [policies], built on the empty store, and the
    store it is built in. *)
Definition built (transport : HttpTransport) (policies : list PolicyArg)
  : Pipeline.t * Mem :=
  Pipeline.__init__ transport policies empty_store.

Definition run_built (transport : HttpTransport) (policies : list PolicyArg)
    (request : HttpRequest) (kwargs : Options)
  : option (Mem * list Event * Result PipelineResponse) :=
  Pipeline.run (built transport policies).1 request kwargs
               (built transport policies).2.

(** Counting the calls of a kind in a log. *)
Definition is_enter (ev : Event) : bool :=
  match ev with EvTransportEnter _ => true | _ => false end.

Definition is_exit (ev : Event) : bool :=
  match ev with EvTransportExit _ _ => true | _ => false end.

Definition is_transport_send (ev : Event) : bool :=
  match ev with EvTransportSend _ _ _ => true | _ => false end.

Definition is_hook (ev : Event) : bool :=
  match ev with
  | EvOnRequest _ _ | EvOnResponse _ _ | EvOnException _ _ => true
  | _ => false
  end.

Definition count_events (f : Event -> bool) (evs : list Event) : nat :=
  length (List.filter f evs).

(** The exception details handed to [__exit__]. *)
Definition exc_details_of {A} (r : Result A) : option PyExn :=
  match r with Ok _ => None | Raise e => Some e end.

(** ** The statements that are put to the test *)

(** The guarantee of the Policy Runner Adapter read on one send: after
    [on_request], exactly one of [on_response] and [on_exception]
    fires, according to what [next.send] did, and the response is
    returned or the exception raised again. *)
Definition runner_guarantee (policy : SansIOHTTPPolicy)
    (next_send : PipelineRequest -> M PipelineResponse)
    (request : PipelineRequest) (m : Mem) : Prop :=
  let name := sp_name policy in
  let rid := req_id (http_request request) in
  exists m' evs r,
    SansIOHTTPPolicyRunner.send policy next_send request m = Some (m', evs, r) /\
    exists m1 m2 evs_next r_next,
      next_send request m1 = Some (m2, evs_next, r_next) /\
      match r_next with
      | Ok response =>
          evs = EvOnRequest name rid :: evs_next ++ [EvOnResponse name rid] /\
          r = Ok response
      | Raise e =>
          evs = EvOnRequest name rid :: evs_next ++ [EvOnException name rid] /\
          r = Raise e
      end.

(** Policies of which one hook raises. *)
Definition rejecting_policy (name : string) (e : PyExn) : SansIOHTTPPolicy :=
  mkSansIO name (fun _ => failing e) (fun _ _ => quiet) (fun _ => quiet).

Definition response_checker (name : string) (e : PyExn) : SansIOHTTPPolicy :=
  mkSansIO name (fun _ => quiet) (fun _ _ => failing e) (fun _ => quiet).

Definition failing_cleanup (name : string) (e : PyExn) : SansIOHTTPPolicy :=
  mkSansIO name (fun _ => quiet) (fun _ _ => quiet) (fun _ => failing e).

(** The request of the sample store. *)
Definition sample_pipeline_request : PipelineRequest :=
  mkPipelineRequest (plain_request 1) 0.

(** ** The chain built by the constructor *)

(** A listed policy and the node made for it. *)
Inductive wrapped : PolicyArg -> Node -> Prop :=
| wrapped_sansio p n : wrapped (ArgSansIO p) (RunnerNode n p)
| wrapped_http p : wrapped (ArgHTTP p) (PolicyNode p).

(** The entries that the constructor keeps: those that are true. *)
Definition is_policy (a : PolicyArg) : bool :=
  match a with ArgNone | ArgFalseHTTP _ => false | _ => true end.

(** The addresses of the chaining policy objects of a list that are
    true. *)
Fixpoint chaining_addrs (policies : list PolicyArg) : list nat :=
  match policies with
  | [] => []
  | ArgHTTP p :: rest => hp_addr p :: chaining_addrs rest
  | _ :: rest => chaining_addrs rest
  end.

(** [node[i].next] is [node[i+1]], and the [next] of the last node is a
    transport runner over [transport]. *)
Definition linked (nx : gmap NodeId Link) (impl : list Node)
    (transport : HttpTransport) : Prop :=
  forall i nd, impl !! i = Some nd ->
    nx !! node_id nd =
    Some (match impl !! S i with
          | Some nd' => LinkNode nd'
          | None => LinkTransportRunner transport
          end).

(** The entries of the list that are policies, true or false. *)
Definition is_policy_object (a : PolicyArg) : bool :=
  match a with ArgNone => false | _ => true end.

Definition is_sansio (a : PolicyArg) : bool :=
  match a with ArgSansIO _ => true | _ => false end.

(** The node that C7 has for a policy of the list: a runner around a
    simple policy, a chaining policy as it is. *)
Inductive node_of_policy : PolicyArg -> Node -> Prop :=
| node_of_sansio p n : node_of_policy (ArgSansIO p) (RunnerNode n p)
| node_of_http p : node_of_policy (ArgHTTP p) (PolicyNode p)
| node_of_false_http p : node_of_policy (ArgFalseHTTP p) (PolicyNode p).

(** The chain of C7, for a transport and a list of policies. *)
Definition chain_as_specified (transport : HttpTransport)
    (policies : list PolicyArg) (m : Mem) : Prop :=
  let '(self, m') := Pipeline.__init__ transport policies m in
  Forall2 node_of_policy (List.filter is_policy_object policies)
          (Pipeline._impl_policies self) /\
  linked (nexts m') (Pipeline._impl_policies self) transport.

(** A chaining policy that hands the request on and the result back. *)
Definition forwarding_policy (addr : nat) : HTTPPolicy :=
  mkHTTPPolicy addr (fun rq =>
    PNext rq (fun r => match r with Ok x => PReturn x | Raise e => PRaise e end)).

(** ** Chains of simple policies *)

(** The nested sends of the runners around [policies], down to the
    transport runner: each runner's [next.send] is the send of the rest
    of the chain. *)
Fixpoint chain_send (policies : list SansIOHTTPPolicy) (sender : HttpTransport)
    (request : PipelineRequest) : M PipelineResponse :=
  match policies with
  | [] => TransportRunner.send sender request
  | policy :: rest =>
      SansIOHTTPPolicyRunner.send policy (chain_send rest sender) request
  end.

(** The nodes are runners around the policies of a list, in order. *)
Definition runners_around (impl : list Node) (policies : list SansIOHTTPPolicy)
  : Prop :=
  Forall2 (fun nd p => exists n, nd = RunnerNode n p) impl policies.

Definition head_link (impl : list Node) (transport : HttpTransport) : Link :=
  match impl with
  | nd :: _ => LinkNode nd
  | [] => LinkTransportRunner transport
  end.

(** The calls of one hook of each policy of a list, on the request
    [rid], in the order of the list. *)
Definition on_request_calls (policies : list SansIOHTTPPolicy) (rid : nat)
  : list Event :=
  (fun p => EvOnRequest (sp_name p) rid) <$> policies.

Definition on_response_calls (policies : list SansIOHTTPPolicy) (rid : nat)
  : list Event :=
  (fun p => EvOnResponse (sp_name p) rid) <$> policies.

Definition on_exception_calls (policies : list SansIOHTTPPolicy) (rid : nat)
  : list Event :=
  (fun p => EvOnException (sp_name p) rid) <$> policies.

(** [run] for a pipeline of simple policies, with the chain as nested
    sends. *)
Definition simple_run (policies : list SansIOHTTPPolicy)
    (transport : HttpTransport) (request : HttpRequest) (kwargs : Options)
  : M PipelineResponse :=
  Pipeline._prepare_multipart request ;;;
  ctx <- new_context (Some transport) kwargs ;;
  chain_send policies transport (mkPipelineRequest request ctx).

(** The hooks of the policies never raise, on the request [rid]. *)
Definition never_raise (policies : list SansIOHTTPPolicy) (rid : nat) : Prop :=
  forall p, p ∈ policies -> forall h o,
    (on_request p rid h o).2 = None /\
    (on_exception p rid h o).2 = None /\
    forall raw, (on_response p rid raw h o).2 = None.

(** What the preparation of a multipart request may log: calls of
    [on_request] and the serialization of a body. *)
Definition prepare_event (ev : Event) : Prop :=
  match ev with
  | EvOnRequest _ _ | EvPrepareMultipartBody _ => True
  | _ => False
  end.

Definition not_transport_send (ev : Event) : Prop :=
  is_transport_send ev = false.

(** A pipeline whose second policy rejects every request. *)
Definition rejecting_chain : list SansIOHTTPPolicy :=
  [quiet_policy "a"] ++ rejecting_policy "b" ValueError :: [quiet_policy "c"].

(** The store of a run of [rejecting_chain] once the context is made. *)
Definition rejecting_store : Mem :=
  mkMem ∅ [mkContext (Some (answering_transport 200)) sample_kwargs]
        (nexts (built (answering_transport 200)
                  (ArgSansIO <$> rejecting_chain)).2)
        (runners (built (answering_transport 200)
                    (ArgSansIO <$> rejecting_chain)).2) [].

(** [on_response] of the policy never puts one of the three keys in an
    option bag that has none. *)
Definition keeps_keys_out (p : SansIOHTTPPolicy) (rid : nat) : Prop :=
  forall raw h o, keys_absent o -> keys_absent (on_response p rid raw h o).1.2.

(** A policy whose [on_response] switches [enable_cae] on again. *)
Definition restoring_policy (name : string) : SansIOHTTPPolicy :=
  mkSansIO name (fun _ => quiet)
    (fun _ _ h o => (h, <["enable_cae" := VBool true]> o, None))
    (fun _ => quiet).

(** ** Multipart requests *)






(** The contexts at the addresses below [n] are the same in both
    stores. *)
Definition untouched (n : nat) (m m' : Mem) : Prop :=
  forall j, j < n -> contexts m' !! j = contexts m !! j.

Definition keeps_below (n : nat) {A} (c : M A) : Prop :=
  forall m m' evs r,
    n <= length (contexts m) -> c m = Some (m', evs, r) -> untouched n m m'.

(** The store of a pipeline with two quiet policies, with the context of
    an earlier call in it. *)
Definition store_with_earlier_context : Mem :=
  mkMem ∅ [mkContext None sample_kwargs]
        (nexts (built (answering_transport 200)
                  (ArgSansIO <$> [quiet_policy "a"; quiet_policy "b"])).2)
        (runners (built (answering_transport 200)
                    (ArgSansIO <$> [quiet_policy "a"; quiet_policy "b"])).2) [].

(** ** Chaining policies in the chain *)

(** The nested sends of the runners around [policies], down to a link
    whose send is [tail]. *)
Fixpoint nested_send (policies : list SansIOHTTPPolicy)
    (tail : PipelineRequest -> M PipelineResponse)
    (request : PipelineRequest) : M PipelineResponse :=
  match policies with
  | [] => tail request
  | policy :: rest =>
      SansIOHTTPPolicyRunner.send policy (nested_send rest tail) request
  end.

(** A [send] that never calls [self.next.send]. *)
Inductive never_calls_next : PolicyProg -> Prop :=
| never_calls_next_return r : never_calls_next (PReturn r)
| never_calls_next_raise e : never_calls_next (PRaise e)
| never_calls_next_heap f k :
    (forall h, never_calls_next (k h)) -> never_calls_next (PHeap f k).

(** A hook of one of the policies, called on the request [rid]. *)
Definition hook_of (policies : list SansIOHTTPPolicy) (rid : nat)
    (ev : Event) : Prop :=
  exists p, p ∈ policies /\
    (ev = EvOnRequest (sp_name p) rid \/ ev = EvOnResponse (sp_name p) rid \/
     ev = EvOnException (sp_name p) rid).

(** A chaining policy that answers every request by itself, with the
    status 304. *)
Definition cache_policy (addr : nat) : HTTPPolicy :=
  mkHTTPPolicy addr (fun rq =>
    PReturn (mkPipelineResponse (http_request rq) (response_of 304)
                                (context rq))).

(** ** Induction on threads and the pools they wait for *)

Section Thread_nested_ind.
Variable P : Thread -> Prop.
Hypothesis pending : forall req policies o, P (TPending req policies o).
Hypothesis waiting : forall inner req policies o,
  Forall P inner -> P (TWaiting inner req policies o).
Hypothesis running : forall req ctx remaining, P (TRunning req ctx remaining).
Hypothesis ended : forall r, P (TDone r).
Hypothesis cancelled : P TCancelled.

Fixpoint Thread_nested_ind (t : Thread) : P t :=
  match t with
  | TPending req policies o => pending req policies o
  | TWaiting inner req policies o =>
      waiting inner req policies o
        ((fix all (l : list Thread) : Forall P l :=
            match l with
            | [] => @List.Forall_nil _ P
            | t0 :: l0 => @List.Forall_cons _ P t0 l0 (Thread_nested_ind t0) (all l0)
            end) inner)
  | TRunning req ctx remaining => running req ctx remaining
  | TDone r => ended r
  | TCancelled => cancelled
  end.
End Thread_nested_ind.

(** ** The threads of the preparation *)

(** The contexts that the threads use are at the addresses from [lo]
    to [hi], [hi] left out. *)
Inductive ctx_in (lo hi : nat) : Thread -> Prop :=
| ctx_in_pending req policies o : ctx_in lo hi (TPending req policies o)
| ctx_in_waiting inner req policies o :
    Forall (ctx_in lo hi) inner -> ctx_in lo hi (TWaiting inner req policies o)
| ctx_in_running req ctx remaining :
    lo <= ctx < hi -> ctx_in lo hi (TRunning req ctx remaining)
| ctx_in_done r : ctx_in lo hi (TDone r)
| ctx_in_cancelled : ctx_in lo hi TCancelled.




(** A call of [on_request]. *)
Definition on_request_event (ev : Event) : Prop :=
  match ev with EvOnRequest _ _ => True | _ => False end.

(** A step that ends well: it returns [a], calls nothing but
    [on_request], and leaves alone the [next] attributes and the
    contexts below [lo]. *)
Definition quiet_step {A} (lo : nat) (c : M A) (m m' : Mem)
    (evs : list Event) (a : A) : Prop :=
  c m = Some (m', evs, Ok a) /\ frame m m' /\ Forall on_request_event evs /\
  untouched lo m m'.

(** A thread whose contexts are in the store can take a step, after
    which its contexts are in the store; the step is counted in
    [thread_work]. *)
Definition thread_steps (step : Thread -> M Thread) (lo : nat) (t : Thread)
  : Prop :=
  forall m, lo <= length (contexts m) ->
    ctx_in lo (length (contexts m)) t ->
    exists m' evs t',
      quiet_step lo (step t) m m' evs t' /\
      ctx_in lo (length (contexts m')) t' /\
      (is_final t = false -> thread_work t' < thread_work t).

Definition pool_steps (step : list Thread -> M (list Thread)) (lo : nat)
    (pool : list Thread) (m : Mem) : Prop :=
  exists m' evs pool',
    quiet_step lo (step pool) m m' evs pool' /\
    Forall (ctx_in lo (length (contexts m'))) pool' /\
    pool_work pool' < pool_work pool.






(** * Properties *)

(** ** The option bag after [cleanup_kwargs_for_transport] *)

Lemma lookup_cleanup_kwargs (kwargs : Options) (key : string) :
  cleanup_kwargs_for_transport kwargs !! key =
  if decide (internal_key key) then None else kwargs !! key.
Proof.
  unfold cleanup_kwargs_for_transport, internal_key, kwargs_to_remove.
  destruct (decide (kwargs = ∅)) as [-> | _].
  - rewrite lookup_empty. by case_decide.
  - simpl. rewrite !lookup_delete.
    destruct (decide (key ∈ _)) as [Hin | Hout].
    + rewrite !elem_of_cons, elem_of_nil in Hin.
      repeat case_decide; try done.
      destruct Hin as [-> | [-> | [-> | []]]]; congruence.
    + rewrite !elem_of_cons, elem_of_nil in Hout.
      rewrite !decide_False; [done | intros <-; tauto ..].
Qed.

Lemma cleanup_kwargs_internal (kwargs : Options) (key : string) :
  internal_key key -> cleanup_kwargs_for_transport kwargs !! key = None.
Proof. intros Hk. rewrite lookup_cleanup_kwargs. by rewrite decide_True. Qed.


Lemma cleanup_kwargs_idemp (kwargs : Options) :
  cleanup_kwargs_for_transport (cleanup_kwargs_for_transport kwargs) =
  cleanup_kwargs_for_transport kwargs.
Proof.
  apply map_eq. intros key. rewrite !lookup_cleanup_kwargs.
  by case_decide.
Qed.

(** ** The store under the primitive operations *)

Lemma lookup_set_options_eq (m : Mem) (ctx : nat) (o : Options) c :
  contexts m !! ctx = Some c ->
  contexts (set_options ctx o m) !! ctx = Some (mkContext (ctx_transport c) o).
Proof. intros H. simpl. by rewrite list_lookup_alter_eq, H. Qed.

Lemma lookup_set_options_ne (m : Mem) (ctx ctx' : nat) (o : Options) :
  ctx ≠ ctx' ->
  contexts (set_options ctx o m) !! ctx' = contexts m !! ctx'.
Proof. intros H. simpl. by rewrite list_lookup_alter_ne. Qed.

(** What [_TransportRunner.send] does on a store whose context [ctx] is
    [c]: one call of the transport, on the cleaned option bag, which is
    also the option bag left in the context. *)
Lemma TransportRunner_send_eq sender request m c :
  contexts m !! context request = Some c ->
  let kwargs := cleanup_kwargs_for_transport (options c) in
  let m1 := set_options (context request) kwargs m in
  let rid := req_id (http_request request) in
  TransportRunner.send sender request m =
  Some (set_heap (tr_send sender rid kwargs (heap m)).1 m1,
        [EvTransportSend (tr_name sender) rid kwargs],
        match (tr_send sender rid kwargs (heap m)).2 with
        | Ok raw =>
            Ok (mkPipelineResponse (http_request request) raw (context request))
        | Raise e => Raise e
        end).
Proof.
  intros Hc kwargs m1 rid.
  unfold TransportRunner.send, bind, get_options, put_options, transport_send.
  rewrite Hc.
  rewrite (lookup_set_options_eq _ _ _ _ Hc). simpl.
  fold kwargs. fold rid.
  destruct (tr_send sender rid kwargs (heap m)) as [h [raw | e]]; simpl; done.
Qed.

(** ** Inversion of the combinators *)

Lemma bind_Some {A B} (c : M A) (f : A -> M B) m m' evs r :
  bind c f m = Some (m', evs, r) ->
  (exists e, c m = Some (m', evs, Raise e) /\ r = Raise e) \/
  (exists m1 evs1 a evs2,
      c m = Some (m1, evs1, Ok a) /\ f a m1 = Some (m', evs2, r) /\
      evs = evs1 ++ evs2).
Proof.
  unfold bind. destruct (c m) as [[[m1 evs1] [a | e]] |]; [| | done].
  - destruct (f a m1) as [[[m2 evs2] r2] |] eqn:Hf; [| done].
    intros [= <- <- <-]. right. by exists m1, evs1, a, evs2.
  - intros [= <- <- <-]. left. by exists e.
Qed.

Lemma try_except_Some {A} (c : M A) (handler : M unit) m m' evs r :
  try_except_Exception_reraise c handler m = Some (m', evs, r) ->
  (exists a, c m = Some (m', evs, Ok a) /\ r = Ok a) \/
  (exists e, c m = Some (m', evs, Raise e) /\ is_Exception e = false /\
             r = Raise e) \/
  (exists m1 evs1 e evs2 r2,
      c m = Some (m1, evs1, Raise e) /\ is_Exception e = true /\
      handler m1 = Some (m', evs2, r2) /\ evs = evs1 ++ evs2 /\
      r = match r2 with Ok _ => Raise e | Raise e' => Raise e' end).
Proof.
  unfold try_except_Exception_reraise.
  destruct (c m) as [[[m1 evs1] [a | e]] |]; [| | done].
  - intros [= <- <- <-]. left. by exists a.
  - destruct (is_Exception e) eqn:He.
    + destruct (handler m1) as [[[m2 evs2] r2] |] eqn:Hh; [| done].
      intros Heq. right. right. exists m1, evs1, e, evs2, r2.
      destruct r2; injection Heq as <- <- <-; done.
    + intros [= <- <- <-]. right. left. by exists e.
Qed.

Lemma attempt_Some {A} (c : M A) m m' evs r :
  attempt c m = Some (m', evs, r) ->
  exists r', c m = Some (m', evs, r') /\ r = Ok r'.
Proof.
  unfold attempt. destruct (c m) as [[[m1 evs1] r1] |]; [| done].
  intros [= <- <- <-]. by exists r1.
Qed.

Lemma await_result_Some ev ctx hook m m' evs r :
  _await_result ev ctx hook m = Some (m', evs, r) ->
  exists c, contexts m !! ctx = Some c /\
    let res := hook (heap m) (options c) in
    m' = set_heap res.1.1 (set_options ctx res.1.2 m) /\ evs = [ev] /\
    r = match res.2 with None => Ok tt | Some e => Raise e end.
Proof.
  unfold _await_result. destruct (contexts m !! ctx) as [c |]; [| done].
  destruct (hook (heap m) (options c)) as [[h o] res] eqn:Hh.
  intros [= <- <- <-]. exists c. split; [done |].
  rewrite Hh. done.
Qed.

(** ** What every part of [run] logs and leaves in the store *)

Lemma frame_refl m : frame m m.
Proof. by unfold frame. Qed.

Lemma frame_trans m1 m2 m3 : frame m1 m2 -> frame m2 m3 -> frame m1 m3.
Proof. unfold frame. intros (-> & -> & ?) (-> & -> & ?). repeat split; lia. Qed.

Lemma frame_set_heap h m : frame m (set_heap h m).
Proof. by unfold frame. Qed.

Lemma frame_set_options ctx o m : frame m (set_options ctx o m).
Proof. unfold frame. simpl. by rewrite length_alter. Qed.

Lemma sound_ret {A} (a : A) : sound (ret a).
Proof. intros m m' evs r [= <- <- <-]. split; [apply frame_refl | done]. Qed.

Lemma sound_raise {A} e : sound (@raise A e).
Proof. intros m m' evs r [= <- <- <-]. split; [apply frame_refl | done]. Qed.

Lemma sound_of_result {A} (r : Result A) : sound (of_result r).
Proof. intros m m' evs r' [= <- <- <-]. split; [apply frame_refl | done]. Qed.

Lemma sound_stuck {A} : sound (@stuck A).
Proof. by intros m m' evs r. Qed.

Lemma sound_bind {A B} (c : M A) (f : A -> M B) :
  sound c -> (forall a, sound (f a)) -> sound (bind c f).
Proof.
  intros Hc Hf m m' evs r H.
  apply bind_Some in H as [(e & H & ->) | (m1 & evs1 & a & evs2 & H1 & H2 & ->)].
  - by apply Hc in H.
  - apply Hc in H1 as [? ?]. apply Hf in H2 as [? ?].
    split; [by eapply frame_trans | by apply Forall_app].
Qed.

Lemma sound_try {A} (c : M A) handler :
  sound c -> sound handler -> sound (try_except_Exception_reraise c handler).
Proof.
  intros Hc Hh m m' evs r H.
  apply try_except_Some in H
    as [(a & H & _) | [(e & H & _ & _) |
        (m1 & evs1 & e & evs2 & r2 & H1 & _ & H2 & -> & _)]].
  - by apply Hc in H.
  - by apply Hc in H.
  - apply Hc in H1 as [? ?]. apply Hh in H2 as [? ?].
    split; [by eapply frame_trans | by apply Forall_app].
Qed.

Lemma sound_attempt {A} (c : M A) : sound c -> sound (attempt c).
Proof.
  intros Hc m m' evs r H. apply attempt_Some in H as (r' & H & _).
  by apply Hc in H.
Qed.

Lemma sound_await_result ev ctx hook :
  run_event ev -> sound (_await_result ev ctx hook).
Proof.
  intros Hev m m' evs r H.
  apply await_result_Some in H as (c & _ & -> & -> & _).
  split; [| by apply Forall_singleton].
  eapply frame_trans; [apply frame_set_options | apply frame_set_heap].
Qed.

Lemma sound_new_context transport kwargs : sound (new_context transport kwargs).
Proof.
  intros m m' evs r [= <- <- <-]. split; [| done].
  unfold frame. simpl. rewrite length_app. simpl. repeat split; lia.
Qed.

Lemma sound_get_next i : sound (get_next i).
Proof. intros m m' evs r [= <- <- <-]. split; [apply frame_refl | done]. Qed.

Lemma keys_absent_cleanup (kwargs : Options) :
  keys_absent (cleanup_kwargs_for_transport kwargs).
Proof. intros key Hk. by apply cleanup_kwargs_internal. Qed.

Lemma sound_TransportRunner_send sender request :
  sound (TransportRunner.send sender request).
Proof.
  intros m m' evs r H.
  destruct (contexts m !! context request) as [c |] eqn:Hc.
  - rewrite (TransportRunner_send_eq _ _ _ _ Hc) in H.
    injection H as <- <- <-. split.
    + eapply frame_trans; [apply frame_set_options | apply frame_set_heap].
    + apply Forall_singleton. simpl. apply keys_absent_cleanup.
  - unfold TransportRunner.send, bind, get_options in H. by rewrite Hc in H.
Qed.

Lemma sound_Runner_send policy next_send request :
  (forall rq, sound (next_send rq)) ->
  sound (SansIOHTTPPolicyRunner.send policy next_send request).
Proof.
  intros Hn. unfold SansIOHTTPPolicyRunner.send.
  apply sound_bind; [by apply sound_await_result | intros _].
  apply sound_bind; [apply sound_try; [done | by apply sound_await_result] |].
  intros resp.
  apply sound_bind; [by apply sound_await_result | intros _; apply sound_ret].
Qed.

Lemma sound_run_prog next_send p :
  (forall rq, sound (next_send rq)) -> sound (run_prog next_send p).
Proof.
  intros Hn. induction p as [r | e | f k IH | rq k IH]; simpl.
  - apply sound_ret.
  - apply sound_raise.
  - intros m m' evs r H. apply IH in H as [? ?].
    split; [| done]. eapply frame_trans; [apply frame_set_heap | done].
  - apply sound_bind; [by apply sound_attempt | done].
Qed.

Lemma sound_send_link fuel link request : sound (send_link fuel link request).
Proof.
  revert link request.
  induction fuel as [| fuel IH]; intros link request; simpl.
  - apply sound_stuck.
  - destruct link as [nd | sender]; [| apply sound_TransportRunner_send].
    assert (forall rq, sound (nx <- get_next (node_id nd) ;;
              match nx with
              | Some l => send_link fuel l rq
              | None => raise AttributeError
              end)) as Hn.
    { intros rq. apply sound_bind; [apply sound_get_next |].
      intros [l |]; [apply IH | apply sound_raise]. }
    destruct nd as [n policy | p].
    + by apply sound_Runner_send.
    + by apply sound_run_prog.
Qed.

Lemma sound_apply_on_request policies pipeline_request :
  sound (Pipeline.apply_on_request policies pipeline_request).
Proof.
  induction policies as [| policy rest IH]; simpl; [apply sound_ret |].
  apply sound_bind; [by apply sound_await_result | done].
Qed.

(** ** The steps of the thread pool *)

Lemma joined_final pool r : joined pool = Some r -> pool_final pool = true.
Proof. unfold joined. by destruct (pool_final pool). Qed.

Lemma final_collected pool :
  pool_final pool = true -> is_Some (collected pool).
Proof.
  induction pool as [| [| | | [[] | e] |] rest IH]; simpl; try done; eauto.
Qed.

Lemma joined_None pool : joined pool = None -> pool_final pool = false.
Proof.
  unfold joined. destruct (pool_final pool) eqn:Hf; [| done].
  intros Hc. by destruct (final_collected pool Hf) as [r Hr]; congruence.
Qed.

Lemma live_count_pos pool : pool_final pool = false -> 0 < live_count pool.
Proof.
  unfold pool_final, live_count.
  induction pool as [| t rest IH]; simpl; [done |].
  destruct (is_final t); simpl; [done | lia].
Qed.

Lemma ctx_in_mono lo hi hi' t : hi <= hi' -> ctx_in lo hi t -> ctx_in lo hi' t.
Proof.
  intros Hh. induction t as [| inner req policies o IH | | |]
    using Thread_nested_ind; intros H; inversion H; subst; constructor.
  - clear H. induction IH as [| t rest Ht _ IHrest]; [done |].
    apply Forall_cons in H1 as [? ?]. constructor; auto.
  - lia.
Qed.

Lemma Forall_ctx_in_mono lo hi hi' pool :
  hi <= hi' -> Forall (ctx_in lo hi) pool -> Forall (ctx_in lo hi') pool.
Proof.
  intros Hh H. eapply Forall_impl; [exact H |]. intros t. by apply ctx_in_mono.
Qed.

Lemma ctx_in_submit_all lo hi requests policies o :
  Forall (ctx_in lo hi) (submit_all requests policies o).
Proof. apply Forall_fmap, Forall_true. intros req. constructor. Qed.

Lemma work_submit_all requests policies o :
  pool_work (submit_all requests policies o) =
  list_sum (request_work (length policies) <$> requests).
Proof.
  unfold pool_work, submit_all. by rewrite <- list_fmap_compose.
Qed.

Lemma request_work_pos n req : 0 < request_work n req.
Proof. destruct req as [rid [[[[rq ps] b] o] |] s]; simpl; lia. Qed.

Lemma cancel_pending_ctx_in lo hi pool :
  Forall (ctx_in lo hi) pool -> Forall (ctx_in lo hi) (cancel_pending pool).
Proof.
  intros H. apply Forall_fmap. eapply Forall_impl; [exact H |].
  intros t Ht. simpl. destruct (is_pending t); [constructor | done].
Qed.

Lemma pool_work_cons t pool :
  pool_work (t :: pool) = thread_work t + pool_work pool.
Proof. done. Qed.

Lemma cancel_pending_cons t pool :
  cancel_pending (t :: pool) =
  (if is_pending t then TCancelled else t) :: cancel_pending pool.
Proof. done. Qed.

Lemma cancel_pending_le pool :
  pool_work (cancel_pending pool) <= pool_work pool.
Proof.
  induction pool as [| t rest IH]; [done |].
  rewrite cancel_pending_cons, !pool_work_cons.
  destruct (is_pending t); simpl; lia.
Qed.

Lemma cancel_pending_work pool :
  existsb is_pending pool = true ->
  pool_work (cancel_pending pool) < pool_work pool.
Proof.
  induction pool as [| t rest IH]; [done |].
  rewrite cancel_pending_cons, !pool_work_cons. simpl.
  pose proof (cancel_pending_le rest).
  destruct t as [req policies o | | | |]; simpl;
    try (intros Hex; apply IH in Hex; lia).
  intros _. pose proof (request_work_pos (length policies) req). lia.
Qed.

Lemma quiet_step_ret {A} lo (a : A) m : quiet_step lo (ret a) m m [] a.
Proof. repeat split; done. Qed.

Lemma quiet_step_bind {A B} lo (c : M A) (f : A -> M B) m m1 m2 evs1 evs2 a b :
  quiet_step lo c m m1 evs1 a -> quiet_step lo (f a) m1 m2 evs2 b ->
  quiet_step lo (bind c f) m m2 (evs1 ++ evs2) b.
Proof.
  intros (Hc & Hf1 & He1 & Hu1) (Hf & Hf2 & He2 & Hu2).
  split; [| split; [| split]].
  - unfold bind. by rewrite Hc, Hf.
  - by eapply frame_trans.
  - by apply Forall_app.
  - intros j Hj. by rewrite Hu2, Hu1.
Qed.

Lemma quiet_step_new_context lo transport kwargs m :
  lo <= length (contexts m) ->
  exists m',
    quiet_step lo (new_context transport kwargs) m m' [] (length (contexts m)) /\
    length (contexts m') = S (length (contexts m)).
Proof.
  intros Hlo. eexists. split; [split; [reflexivity | split; [| split]] |].
  - unfold frame. simpl. rewrite length_app. repeat split; lia.
  - done.
  - intros j Hj. simpl. apply lookup_app_l. lia.
  - simpl. rewrite length_app. simpl. lia.
Qed.

Lemma quiet_step_pick lo n m :
  0 < n ->
  exists m' k,
    quiet_step lo (pick n) m m' [] k /\ k < n /\ contexts m' = contexts m.
Proof.
  intros Hn. unfold quiet_step, pick.
  destruct (schedule m) as [| c rest].
  - exists m, 0. repeat split; done.
  - eexists _, _. split; [split; [reflexivity |] |].
    + repeat split; done.
    + split; [| done]. apply Nat.mod_upper_bound. lia.
Qed.

Lemma step_nth_steps step lo k pool m :
  Forall (thread_steps step lo) pool ->
  lo <= length (contexts m) ->
  Forall (ctx_in lo (length (contexts m))) pool ->
  k < live_count pool ->
  pool_steps (step_nth step k) lo pool m.
Proof.
  intros Hsteps Hlo. revert k.
  induction Hsteps as [| t rest Ht _ IH]; intros k Hin Hk.
  - unfold live_count in Hk. simpl in Hk. lia.
  - apply Forall_cons in Hin as [Hin_t Hin_rest].
    unfold live_count in Hk. simpl in Hk.
    unfold pool_steps. simpl step_nth.
    destruct (is_final t) eqn:Hfinal; simpl in Hk.
    + destruct (IH k Hin_rest Hk) as (m' & evs & rest' & Hq & Hin' & Hw).
      exists m', evs, (t :: rest'). split; [| split].
      * rewrite <- (app_nil_r evs).
        eapply quiet_step_bind; [exact Hq | apply quiet_step_ret].
      * constructor; [| done].
        eapply ctx_in_mono; [| exact Hin_t]. by destruct Hq as (_ & (_ & _ & ?) & _).
      * rewrite !pool_work_cons. lia.
    + destruct k as [| k].
      * destruct (Ht m Hlo Hin_t) as (m' & evs & t' & Hq & Hin' & Hw).
        exists m', evs, (t' :: rest). split; [| split].
        -- rewrite <- (app_nil_r evs).
           eapply quiet_step_bind; [exact Hq | apply quiet_step_ret].
        -- constructor; [done |].
           eapply Forall_ctx_in_mono; [| exact Hin_rest].
           by destruct Hq as (_ & (_ & _ & ?) & _).
        -- rewrite !pool_work_cons. specialize (Hw Hfinal). lia.
      * destruct (IH k Hin_rest ltac:(unfold live_count; lia)) as (m' & evs & rest' & Hq & Hin' & Hw).
        exists m', evs, (t :: rest'). split; [| split].
        -- rewrite <- (app_nil_r evs).
           eapply quiet_step_bind; [exact Hq | apply quiet_step_ret].
        -- constructor; [| done].
           eapply ctx_in_mono; [| exact Hin_t].
           by destruct Hq as (_ & (_ & _ & ?) & _).
        -- rewrite !pool_work_cons. lia.
Qed.

Lemma step_pool_with_steps step lo pool m :
  Forall (thread_steps step lo) pool ->
  lo <= length (contexts m) ->
  Forall (ctx_in lo (length (contexts m))) pool ->
  joined pool = None ->
  pool_steps (step_pool_with step) lo pool m.
Proof.
  intros Hsteps Hlo Hin Hj.
  apply joined_None, live_count_pos in Hj.
  unfold step_pool_with.
  destruct (quiet_step_pick lo
              (live_count pool + (if can_cancel pool then 1 else 0)) m
              ltac:(lia)) as (m1 & k & Hpick & Hk & Hctx).
  destruct (can_cancel pool && bool_decide (k = live_count pool)) eqn:Hc.
  - exists m1, [], (cancel_pending pool).
    apply andb_true_iff in Hc as [Hc Hb]. split; [| split].
    + change (@nil Event) with (@nil Event ++ []).
      eapply quiet_step_bind; [exact Hpick |].
      rewrite Hc, Hb. apply quiet_step_ret.
    + rewrite Hctx. by apply cancel_pending_ctx_in.
    + apply cancel_pending_work. unfold can_cancel in Hc.
      by destruct (collected pool) as [[] |].
  - assert (k < live_count pool) as Hlive.
    { destruct (can_cancel pool); simpl in *; [| lia].
      apply bool_decide_eq_false in Hc. lia. }
    destruct (step_nth_steps step lo k pool m1 Hsteps) as
      (m' & evs & pool' & Hq & Hin' & Hw); [by rewrite Hctx .. | done |].
    exists m', evs, pool'. split; [| done].
    change evs with ([] ++ evs).
    eapply quiet_step_bind; [exact Hpick |]. by rewrite Hc.
Qed.

Lemma quiet_step_hook lo ev ctx hook m :
  on_request_event ev -> lo <= ctx < length (contexts m) ->
  exists m' r,
    quiet_step lo (attempt (_await_result ev ctx hook)) m m' [ev] r /\
    length (contexts m') = length (contexts m).
Proof.
  intros Hev [Hlo Hhi].
  destruct (lookup_lt_is_Some_2 _ _ Hhi) as [c Hc].
  unfold quiet_step, attempt, _await_result. rewrite Hc.
  destruct (hook (heap m) (options c)) as [[h o] res].
  eexists _, _. split; [split; [reflexivity | split; [| split]] |].
  - eapply frame_trans; [apply frame_set_options | apply frame_set_heap].
  - by apply Forall_singleton.
  - intros j Hj. simpl. apply list_lookup_alter_ne. lia.
  - simpl. by rewrite length_alter.
Qed.

Lemma prepare_requests_step_steps lo t :
  thread_steps Pipeline.prepare_requests_step lo t.
Proof.
  induction t as [req policies o | inner req policies o IH
                  | req ctx remaining | r |]
    using Thread_nested_ind; intros m Hlo Hin.
  - destruct req as [rid [[[[rq ps] b] o'] |] s]; simpl.
    + exists m, [], (TWaiting (submit_all rq ps o')
                              (mkRequest rid (Some (rq, ps, b, o')) s)
                              policies o).
      split; [apply quiet_step_ret | split].
      * constructor. apply ctx_in_submit_all.
      * intros _. simpl.
        pose proof (work_submit_all rq ps o') as Hw. unfold pool_work in Hw.
        rewrite Hw. lia.
    + destruct (quiet_step_new_context lo None o m Hlo) as (m' & Hq & Hlen).
      exists m', [], (TRunning (mkRequest rid None s) (length (contexts m))
                               policies).
      split; [| split].
      * change (@nil Event) with (@nil Event ++ []).
        eapply quiet_step_bind; [exact Hq | apply quiet_step_ret].
      * constructor. lia.
      * intros _. simpl. lia.
  - inversion Hin as [| ? ? ? ? Hinner | | |]; subst.
    simpl. destruct (joined inner) as [[[] | e] |] eqn:Hj.
    + destruct (quiet_step_new_context lo None o m Hlo) as (m' & Hq & Hlen).
      exists m', [], (TRunning req (length (contexts m)) policies).
      split; [| split].
      * change (@nil Event) with (@nil Event ++ []).
        eapply quiet_step_bind; [exact Hq | apply quiet_step_ret].
      * constructor. lia.
      * intros _. simpl. lia.
    + exists m, [], (TDone (Raise e)).
      split; [apply quiet_step_ret | split; [constructor |]].
      intros _. simpl. lia.
    + destruct (step_pool_with_steps _ lo inner m IH Hlo Hinner Hj)
        as (m' & evs & inner' & Hq & Hin' & Hw).
      exists m', evs, (TWaiting inner' req policies o).
      split; [| split].
      * rewrite <- (app_nil_r evs).
        eapply quiet_step_bind; [exact Hq | apply quiet_step_ret].
      * by constructor.
      * intros _. simpl. unfold pool_work in Hw. lia.
  - inversion Hin as [| | ? ? ? Hctx | |]; subst.
    destruct remaining as [| policy rest]; simpl.
    + exists m, [], (TDone (Ok tt)).
      split; [apply quiet_step_ret | split; [constructor |]].
      intros _. simpl. lia.
    + destruct (quiet_step_hook lo (EvOnRequest (sp_name policy) (req_id req))
                  ctx (on_request policy (req_id req)) m I Hctx)
        as (m' & r & Hq & Hlen).
      exists m', [EvOnRequest (sp_name policy) (req_id req)],
        (match r with Ok _ => TRunning req ctx rest | Raise e => TDone (Raise e) end).
      split; [| split].
      * change [EvOnRequest (sp_name policy) (req_id req)]
          with ([EvOnRequest (sp_name policy) (req_id req)] ++ []).
        eapply quiet_step_bind; [exact Hq | apply quiet_step_ret].
      * rewrite Hlen. destruct r; by constructor.
      * intros _. destruct r; simpl; lia.
  - exists m, [], (TDone r). split; [apply quiet_step_ret | done].
  - exists m, [], TCancelled. split; [apply quiet_step_ret | done].
Qed.

Lemma step_pool_steps lo pool m :
  lo <= length (contexts m) ->
  Forall (ctx_in lo (length (contexts m))) pool ->
  joined pool = None ->
  pool_steps Pipeline.step_pool lo pool m.
Proof.
  apply step_pool_with_steps, Forall_true, prepare_requests_step_steps.
Qed.

Lemma run_pool_returns lo fuel pool m :
  lo <= length (contexts m) ->
  Forall (ctx_in lo (length (contexts m))) pool ->
  pool_work pool <= fuel ->
  exists m' evs r, quiet_step lo (Pipeline.run_pool fuel pool) m m' evs r.
Proof.
  revert pool m. induction fuel as [| fuel IH]; intros pool m Hlo Hin Hfuel;
    simpl; destruct (joined pool) as [r |] eqn:Hj;
    try (exists m, [], r; apply quiet_step_ret);
    destruct (step_pool_steps lo pool m Hlo Hin Hj)
      as (m1 & evs1 & pool' & Hq & Hin' & Hw); [lia |].
  destruct (IH pool' m1) as (m' & evs & r & Hq'); [| done | lia |].
  { destruct Hq as (_ & (_ & _ & ?) & _). lia. }
  exists m', (evs1 ++ evs), r. by eapply quiet_step_bind.
Qed.

Lemma prepare_multipart_mixed_request_returns lo request m :
  lo <= length (contexts m) ->
  exists m' evs r,
    Pipeline._prepare_multipart_mixed_request request m = Some (m', evs, r) /\
    frame m m' /\ Forall on_request_event evs /\ untouched lo m m'.
Proof.
  intros Hlo. unfold Pipeline._prepare_multipart_mixed_request.
  destruct (multipart_mixed_info request) as [[[[rq ps] b] o] |].
  - destruct (run_pool_returns lo (pool_work (submit_all rq ps o))
                (submit_all rq ps o) m Hlo (ctx_in_submit_all _ _ _ _ _)
                (le_n _)) as (m' & evs & r & Hrun & Hf & He & Hu).
    exists m', evs, r. split; [| done].
    unfold bind, of_result. rewrite Hrun. by rewrite app_nil_r.
  - exists m, [], (Ok tt). repeat split; done.
Qed.

Lemma on_request_event_run_event evs :
  Forall on_request_event evs -> Forall run_event evs.
Proof. intros H. eapply Forall_impl; [exact H |]. by intros []. Qed.

Lemma on_request_event_prepare_event evs :
  Forall on_request_event evs -> Forall prepare_event evs.
Proof. intros H. eapply Forall_impl; [exact H |]. by intros []. Qed.

Lemma sound_prepare_multipart_mixed_request request :
  sound (Pipeline._prepare_multipart_mixed_request request).
Proof.
  intros m m' evs r H.
  destruct (prepare_multipart_mixed_request_returns 0 request m ltac:(lia))
    as (m1 & evs1 & r1 & H1 & Hf & He & _).
  rewrite H in H1. injection H1 as <- <- <-.
  split; [done | by apply on_request_event_run_event].
Qed.

Lemma sound_prepare_multipart_body request :
  sound (Pipeline.prepare_multipart_body request).
Proof.
  unfold Pipeline.prepare_multipart_body.
  destruct (multipart_mixed_info request); [| apply sound_ret].
  intros m m' evs r H.
  destruct (serialize_parts request (heap m)) as [h res].
  injection H as <- <- <-. split; [apply frame_set_heap | by apply Forall_singleton].
Qed.

Lemma sound_run self request kwargs :
  sound (Pipeline.run self request kwargs).
Proof.
  unfold Pipeline.run, Pipeline._prepare_multipart.
  apply sound_bind.
  - apply sound_bind; [apply sound_prepare_multipart_mixed_request |].
    intros _. apply sound_prepare_multipart_body.
  - intros _. apply sound_bind; [apply sound_new_context |].
    intros ctx. apply sound_send_link.
Qed.

(** ** The arguments that reach the transport *)



(** ** The pipeline without policies *)

Lemma prepare_multipart_simple request m :
  multipart_mixed_info request = None ->
  Pipeline._prepare_multipart request m = Some (m, [], Ok tt).
Proof.
  destruct request as [rid info s]. simpl. intros ->.
  unfold Pipeline._prepare_multipart, Pipeline.prepare_multipart_body, bind.
  reflexivity.
Qed.

(** C4.  A pipeline built with no policy, run on a request without
    multipart information: the only call is one call of the transport's
    [send]; what the transport returns is returned, wrapped with the
    request and with the context made by this run (a new object, holding
    the transport), and what the transport raises is raised. *)
Theorem empty_pipeline_is_identity transport m0 request call_options m :
  multipart_mixed_info request = None ->
  let self := (Pipeline.__init__ transport [] m0).1 in
  let ctx := length (contexts m) in
  let kwargs := cleanup_kwargs_for_transport call_options in
  let sent := tr_send transport (req_id request) kwargs (heap m) in
  contexts m !! ctx = None /\
  exists m',
    Pipeline.run self request call_options m =
      Some (m', [EvTransportSend (tr_name transport) (req_id request) kwargs],
            match sent.2 with
            | Ok raw => Ok (mkPipelineResponse request raw ctx)
            | Raise e => Raise e
            end) /\
    contexts m' !! ctx = Some (mkContext (Some transport) kwargs) /\
    heap m' = sent.1.
Proof.
  intros Hreq self ctx kwargs sent.
  split; [by apply lookup_ge_None_2 |].
  unfold Pipeline.run. unfold bind at 1.
  rewrite (prepare_multipart_simple _ _ Hreq).
  unfold bind at 1, new_context. simpl.
  set (m1 := mkMem _ _ _ _ _).
  assert (contexts m1 !! ctx = Some (mkContext (Some transport) call_options))
    as Hc.
  { unfold m1, ctx. simpl. by rewrite lookup_app_r, Nat.sub_diag. }
  pose proof (TransportRunner_send_eq transport
                (mkPipelineRequest request ctx) m1 _ Hc) as Hsend.
  simpl in Hsend. fold ctx. rewrite Hsend. fold kwargs.
  change (heap m1) with (heap m). fold sent.
  eexists. split; [reflexivity |]. split; [| done].
  simpl. rewrite list_lookup_alter_eq. unfold m1 in Hc. simpl in Hc.
  by rewrite Hc.
Qed.

Lemma empty_pipeline_is_identity_witness :
  multipart_mixed_info (plain_request 7) = None /\
  exists m',
    Pipeline.run (Pipeline.__init__ (answering_transport 503) [] empty_store).1
                 (plain_request 7) sample_kwargs empty_store =
    Some (m', [EvTransportSend "transport" 7 (<["timeout" := VInt 30]> ∅)],
          Ok (mkPipelineResponse (plain_request 7) (response_of 503) 0)).
Proof.
  split; [reflexivity |].
  destruct (empty_pipeline_is_identity (answering_transport 503) empty_store
              (plain_request 7) sample_kwargs empty_store eq_refl)
    as (_ & m' & Hrun & _ & _).
  exists m'. exact Hrun.
Defined.

(** ** The pipeline as a context manager *)

Lemma Pipeline_enter_eq self m :
  Pipeline.__enter__ self m =
  Some (set_heap (tr_enter (Pipeline._transport self) (heap m)).1 m,
        [EvTransportEnter (tr_name (Pipeline._transport self))],
        match (tr_enter (Pipeline._transport self) (heap m)).2 with
        | None => Ok self
        | Some e => Raise e
        end).
Proof.
  unfold Pipeline.__enter__, bind, transport_enter, ret.
  by destruct (tr_enter _ _) as [h [e |]].
Qed.

Lemma Pipeline_exit_eq self exc_details m :
  Pipeline.__exit__ self exc_details m =
  Some (set_heap (tr_exit (Pipeline._transport self) exc_details (heap m)).1 m,
        [EvTransportExit (tr_name (Pipeline._transport self)) exc_details],
        match (tr_exit (Pipeline._transport self) exc_details (heap m)).2 with
        | None => Ok tt
        | Some e => Raise e
        end).
Proof.
  unfold Pipeline.__exit__, transport_exit.
  by destruct (tr_exit _ _ _) as [h [e |]].
Qed.

Lemma run_event_no_enter_exit evs :
  Forall run_event evs ->
  count_events is_enter evs = 0 /\ count_events is_exit evs = 0.
Proof.
  unfold count_events.
  induction 1 as [| ev evs Hev _ [IH1 IH2]]; [done |].
  destruct ev; simpl in *; done.
Qed.

Lemma count_events_app f evs1 evs2 :
  count_events f (evs1 ++ evs2) = count_events f evs1 + count_events f evs2.
Proof. unfold count_events. by rewrite List.filter_app, length_app. Qed.

(** C9.  [__enter__] calls the transport's [__enter__] and nothing else,
    [__exit__] calls the transport's [__exit__] with the exception
    details and nothing else.  In [with pipeline: pipeline.run(...)],
    once the transport is entered, whatever [run] does (it may raise),
    the log is: the transport's [__enter__], the calls of [run], the
    transport's [__exit__]; each of the two is called exactly once, and
    the outcome of [run] is the outcome of the block unless [__exit__]
    itself raises. *)
Theorem pipeline_scope_enters_and_exits_once
    self request kwargs m m2 evs_run r_run :
  let transport := Pipeline._transport self in
  let m1 := set_heap (tr_enter transport (heap m)).1 m in
  let exc := exc_details_of r_run in
  let left := tr_exit transport exc (heap m2) in
  let evs := EvTransportEnter (tr_name transport) :: evs_run ++
             [EvTransportExit (tr_name transport) exc] in
  (tr_enter transport (heap m)).2 = None ->
  Pipeline.run self request kwargs m1 = Some (m2, evs_run, r_run) ->
  Pipeline.with_ self (fun p => Pipeline.run p request kwargs) m =
    Some (set_heap left.1 m2, evs,
          match left.2 with None => r_run | Some e => Raise e end) /\
  count_events is_enter evs = 1 /\ count_events is_exit evs = 1 /\
  Pipeline.__enter__ self m = Some (m1, [EvTransportEnter (tr_name transport)],
                                    Ok self) /\
  Pipeline.__exit__ self exc m2 =
    Some (set_heap left.1 m2, [EvTransportExit (tr_name transport) exc],
          match left.2 with None => Ok tt | Some e => Raise e end).
Proof.
  intros transport m1 exc left evs Henter Hrun.
  assert (Pipeline.__enter__ self m =
          Some (m1, [EvTransportEnter (tr_name transport)], Ok self)) as He.
  { rewrite Pipeline_enter_eq. fold transport. by rewrite Henter. }
  pose proof (Pipeline_exit_eq self exc m2) as Hx.
  fold transport in Hx. fold left in Hx.
  split; [| split; [| split; [| by split]]].
  - unfold Pipeline.with_. unfold bind at 1. rewrite He.
    unfold bind at 1, attempt. rewrite Hrun.
    unfold bind at 1. fold (exc_details_of r_run). fold exc. rewrite Hx.
    unfold evs. by destruct (left.2) as [e |].
  - apply sound_run in Hrun as [_ Hevs].
    apply run_event_no_enter_exit in Hevs as [H1 _].
    unfold evs. change (?a :: ?l ++ ?b) with ([a] ++ l ++ b).
    rewrite !count_events_app, H1. done.
  - apply sound_run in Hrun as [_ Hevs].
    apply run_event_no_enter_exit in Hevs as [_ H2].
    unfold evs. change (?a :: ?l ++ ?b) with ([a] ++ l ++ b).
    rewrite !count_events_app, H2. done.
Qed.

Lemma pipeline_scope_enters_and_exits_once_witness :
  events_of
    (Pipeline.with_ (built (raising_transport ConnectionError)
                       [ArgSansIO (quiet_policy "a")]).1
       (fun p => Pipeline.run p (plain_request 1) ∅)
       (built (raising_transport ConnectionError)
          [ArgSansIO (quiet_policy "a")]).2) =
  [EvTransportEnter "transport"; EvOnRequest "a" 1;
   EvTransportSend "transport" 1 ∅; EvOnException "a" 1;
   EvTransportExit "transport" (Some ConnectionError)].
Proof.
  set (pl := built (raising_transport ConnectionError)
               [ArgSansIO (quiet_policy "a")]).
  destruct (Pipeline.run pl.1 (plain_request 1) ∅
              (set_heap (tr_enter (Pipeline._transport pl.1) (heap pl.2)).1
                        pl.2))
    as [[[m2 evs_run] r_run] |] eqn:Hrun.
  - destruct (pipeline_scope_enters_and_exits_once
                pl.1 (plain_request 1) ∅ pl.2 m2 evs_run r_run eq_refl Hrun)
      as (Hwith & _).
    rewrite Hwith. simpl.
    vm_compute in Hrun. injection Hrun as <- <- <-. reflexivity.
  - vm_compute in Hrun. discriminate.
Defined.

(** ** The Policy Runner Adapter *)

Lemma frame_lookup m m1 ctx :
  frame m m1 -> is_Some (contexts m !! ctx) -> is_Some (contexts m1 !! ctx).
Proof.
  intros (_ & _ & Hlen) H. apply lookup_lt_is_Some in H.
  apply lookup_lt_is_Some. lia.
Qed.

Lemma await_result_total ev ctx hook m :
  is_Some (contexts m !! ctx) ->
  exists m1 r1,
    _await_result ev ctx hook m = Some (m1, [ev], r1) /\ frame m m1 /\
    r1 = match (hook (heap m) (default ∅ (options_at m ctx))).2 with
         | None => Ok tt
         | Some e => Raise e
         end.
Proof.
  intros [c Hc]. unfold _await_result, options_at. rewrite Hc. simpl.
  destruct (hook (heap m) (options c)) as [[h o] res]. simpl.
  eexists _, _. split; [reflexivity |]. split; [| done].
  eapply frame_trans; [apply frame_set_options | apply frame_set_heap].
Qed.

Lemma TransportRunner_send_total sender request m :
  is_Some (contexts m !! context request) ->
  exists m2 kwargs r,
    TransportRunner.send sender request m =
      Some (m2, [EvTransportSend (tr_name sender)
                   (req_id (http_request request)) kwargs], r) /\
    frame m m2.
Proof.
  intros [c Hc]. rewrite (TransportRunner_send_eq _ _ _ _ Hc).
  eexists _, _, _. split; [reflexivity |].
  eapply frame_trans; [apply frame_set_options | apply frame_set_heap].
Qed.

Lemma TransportRunner_send_Some sender request m m' evs r :
  TransportRunner.send sender request m = Some (m', evs, r) ->
  exists kwargs h,
    evs = [EvTransportSend (tr_name sender) (req_id (http_request request))
             kwargs] /\
    r = match (tr_send sender (req_id (http_request request)) kwargs h).2 with
        | Ok raw =>
            Ok (mkPipelineResponse (http_request request) raw (context request))
        | Raise e => Raise e
        end.
Proof.
  intros H. destruct (contexts m !! context request) as [c |] eqn:Hc.
  - rewrite (TransportRunner_send_eq _ _ _ _ Hc) in H.
    injection H as <- <- <-. by eexists _, _.
  - unfold TransportRunner.send, bind, get_options in H. by rewrite Hc in H.
Qed.

(** C1, amended.  One send through the adapter, on a store where the
    context of the request exists and with a [next.send] that returns
    or raises.  [on_request] is called first, once.  If it raises,
    nothing else is called and its exception is the outcome.  Otherwise
    [next.send] is called once, and then: if it returned a response,
    [on_response] is called and [on_exception] is not, and the response
    is returned unless [on_response] raises; if it raised an instance of
    [Exception], [on_exception] is called and [on_response] is not, and
    the same exception is raised again unless [on_exception] raises; if
    it raised another [BaseException], neither hook is called and the
    exception goes through. *)
Theorem runner_send_protocol policy next_send request m c :
  let name := sp_name policy in
  let rid := req_id (http_request request) in
  let ctx := context request in
  let send := SansIOHTTPPolicyRunner.send policy next_send request in
  contexts m !! ctx = Some c ->
  (forall m1, frame m m1 ->
     exists m2 evs r, next_send request m1 = Some (m2, evs, r) /\ frame m1 m2) ->
  exists m1 r1,
    _await_result (EvOnRequest name rid) ctx (on_request policy rid) m =
      Some (m1, [EvOnRequest name rid], r1) /\
    match r1 with
    | Raise e => send m = Some (m1, [EvOnRequest name rid], Raise e)
    | Ok _ =>
        exists m2 evs_next r_next,
          next_send request m1 = Some (m2, evs_next, r_next) /\
          match r_next with
          | Ok response =>
              exists m3 r3,
                _await_result (EvOnResponse name rid) ctx
                  (on_response policy rid (http_response response)) m2 =
                  Some (m3, [EvOnResponse name rid], r3) /\
                send m =
                  Some (m3,
                        EvOnRequest name rid :: evs_next ++
                          [EvOnResponse name rid],
                        match r3 with
                        | Ok _ => Ok response
                        | Raise e => Raise e
                        end)
          | Raise e =>
              if is_Exception e then
                exists m3 r3,
                  _await_result (EvOnException name rid) ctx
                    (on_exception policy rid) m2 =
                    Some (m3, [EvOnException name rid], r3) /\
                  send m =
                    Some (m3,
                          EvOnRequest name rid :: evs_next ++
                            [EvOnException name rid],
                          match r3 with
                          | Ok _ => Raise e
                          | Raise e' => Raise e'
                          end)
              else
                send m = Some (m2, EvOnRequest name rid :: evs_next, Raise e)
          end
    end.
Proof.
  intros name rid ctx send Hc Hnext.
  destruct (await_result_total (EvOnRequest name rid) ctx
              (on_request policy rid) m) as (m1 & r1 & H1 & Hf1 & _);
    [by eexists |].
  exists m1, r1. split; [done |].
  unfold send, SansIOHTTPPolicyRunner.send.
  fold name. fold rid. fold ctx.
  destruct r1 as [[] | e].
  2: { unfold bind at 1. by rewrite H1. }
  destruct (Hnext m1 Hf1) as (m2 & evs_next & r_next & H2 & Hf2).
  exists m2, evs_next, r_next. split; [done |].
  assert (is_Some (contexts m2 !! ctx)) as Hc2.
  { eapply frame_lookup; [exact Hf2 |].
    eapply frame_lookup; [exact Hf1 | by eexists]. }
  destruct r_next as [response | e].
  - destruct (await_result_total (EvOnResponse name rid) ctx
                (on_response policy rid (http_response response)) m2 Hc2)
      as (m3 & r3 & H3 & _).
    exists m3, r3. split; [done |].
    unfold bind at 1. rewrite H1.
    unfold bind at 1, try_except_Exception_reraise. rewrite H2.
    unfold bind at 1. rewrite H3.
    by destruct r3 as [[] | e3].
  - destruct (is_Exception e) eqn:He.
    + destruct (await_result_total (EvOnException name rid) ctx
                  (on_exception policy rid) m2 Hc2) as (m3 & r3 & H3 & _).
      exists m3, r3. split; [done |].
      unfold bind at 1. rewrite H1.
      unfold bind at 1, try_except_Exception_reraise. rewrite H2, He, H3.
      by destruct r3 as [[] | e3].
    + unfold bind at 1. rewrite H1.
      unfold bind at 1, try_except_Exception_reraise. by rewrite H2, He.
Qed.

Lemma runner_send_protocol_witness :
  events_of (SansIOHTTPPolicyRunner.send (quiet_policy "a")
               (TransportRunner.send (raising_transport ConnectionError))
               sample_pipeline_request sample_store) =
    [EvOnRequest "a" 1;
     EvTransportSend "transport" 1 (<["timeout" := VInt 30]> ∅);
     EvOnException "a" 1] /\
  result_of (SansIOHTTPPolicyRunner.send (quiet_policy "a")
               (TransportRunner.send (raising_transport ConnectionError))
               sample_pipeline_request sample_store) =
    Some (Raise ConnectionError).
Proof.
  destruct (runner_send_protocol (quiet_policy "a")
              (TransportRunner.send (raising_transport ConnectionError))
              sample_pipeline_request sample_store
              (mkContext None sample_kwargs) eq_refl)
    as (m1 & r1 & H1 & Hrest).
  { intros m1 Hf.
    destruct (TransportRunner_send_total (raising_transport ConnectionError)
                sample_pipeline_request m1) as (m2 & kwargs & r & H & Hf2).
    - eapply frame_lookup; [exact Hf | by eexists].
    - by eexists _, _, _. }
  vm_compute in H1. injection H1 as <- <-.
  destruct Hrest as (m2 & evs_next & r_next & H2 & H3).
  vm_compute in H2. injection H2 as <- <- <-.
  destruct H3 as (m3 & r3 & H4 & Hsend).
  vm_compute in H4. injection H4 as <- <-.
  rewrite Hsend. split; reflexivity.
Defined.

(** C1 as stated fails on four sends: [on_request] raises, and neither
    of the two other hooks fires; [next.send] raises
    [KeyboardInterrupt], which [except Exception] does not catch, and
    [on_exception] does not fire; [on_response] raises, and the
    response is not returned; [on_exception] raises, and the original
    exception is not the one raised. *)
Lemma runner_guarantee_fails :
  ¬ runner_guarantee (rejecting_policy "p" ValueError)
      (TransportRunner.send (answering_transport 200))
      sample_pipeline_request sample_store /\
  ¬ runner_guarantee (quiet_policy "p")
      (TransportRunner.send (raising_transport KeyboardInterrupt))
      sample_pipeline_request sample_store /\
  ¬ runner_guarantee (response_checker "p" ValueError)
      (TransportRunner.send (answering_transport 200))
      sample_pipeline_request sample_store /\
  ¬ runner_guarantee (failing_cleanup "p" ValueError)
      (TransportRunner.send (raising_transport ConnectionError))
      sample_pipeline_request sample_store.
Proof.
  repeat split;
    intros (m' & evs & r & Hsend & m1 & m2 & evs_next & r_next & Hnext & Hshape);
    vm_compute in Hsend; injection Hsend as <- <- <-;
    apply TransportRunner_send_Some in Hnext as (kwargs & h & -> & ->);
    simpl in Hshape; destruct Hshape as [Hevs Hr]; discriminate.
Qed.

(** ** The chain built by [__init__] *)

Lemma wrap_policies_wrapped policies n :
  Forall2 wrapped (List.filter is_policy policies)
          (Pipeline.wrap_policies policies n).1.
Proof.
  revert n. induction policies as [| [p | p | | p] rest IH]; intros n; simpl.
  - constructor.
  - specialize (IH (S n)). destruct (Pipeline.wrap_policies rest (S n)).
    simpl in *. constructor; [constructor | done].
  - specialize (IH n). destruct (Pipeline.wrap_policies rest n).
    simpl in *. constructor; [constructor | done].
  - apply IH.
  - apply IH.
Qed.

Lemma wrap_policies_ids policies n i :
  i ∈ node_id <$> (Pipeline.wrap_policies policies n).1 ->
  match i with
  | RunnerObj k => n <= k
  | PolicyObj a => a ∈ chaining_addrs policies
  end.
Proof.
  revert n. induction policies as [| [p | p | | p] rest IH]; intros n; simpl.
  - by intros ?%elem_of_nil.
  - specialize (IH (S n)). destruct (Pipeline.wrap_policies rest (S n)).
    simpl in *. intros [-> | Hin]%elem_of_cons; [done |].
    apply IH in Hin. destruct i; [lia | done].
  - specialize (IH n). destruct (Pipeline.wrap_policies rest n).
    simpl in *. intros [-> | Hin]%elem_of_cons; [by left |].
    apply IH in Hin. destruct i; [done | by right].
  - apply IH.
  - apply IH.
Qed.

Lemma wrap_policies_NoDup policies n :
  NoDup (chaining_addrs policies) ->
  NoDup (node_id <$> (Pipeline.wrap_policies policies n).1).
Proof.
  revert n. induction policies as [| [p | p | | p] rest IH]; intros n Hnd; simpl.
  - constructor.
  - pose proof (wrap_policies_ids rest (S n) (RunnerObj n)) as Hids.
    specialize (IH (S n) Hnd). destruct (Pipeline.wrap_policies rest (S n)).
    simpl in *. constructor; [| done]. intros Hin%Hids. lia.
  - simpl in Hnd. apply NoDup_cons in Hnd as [Hnotin Hnd].
    pose proof (wrap_policies_ids rest n (PolicyObj (hp_addr p))) as Hids.
    specialize (IH n Hnd). destruct (Pipeline.wrap_policies rest n).
    simpl in *. constructor; [| done]. by intros Hin%Hids.
  - by apply IH.
  - by apply IH.
Qed.

Lemma node_id_inj_lookup (impl : list Node) i j nd nd' :
  NoDup (node_id <$> impl) ->
  impl !! i = Some nd -> impl !! j = Some nd' ->
  node_id nd = node_id nd' -> i = j.
Proof.
  intros Hnd Hi Hj Heq.
  eapply NoDup_lookup; [exact Hnd | |].
  - by rewrite list_lookup_fmap, Hi.
  - by rewrite list_lookup_fmap, Hj, Heq.
Qed.

Lemma link_fold_nexts (impl : list Node) m0 k :
  NoDup (node_id <$> impl) -> k <= length impl - 1 ->
  forall i nd, impl !! i = Some nd ->
    nexts (foldl (Pipeline.link_index impl) m0 (seq 0 k)) !! node_id nd =
    if decide (i < k) then LinkNode <$> impl !! S i
    else nexts m0 !! node_id nd.
Proof.
  intros Hnd. induction k as [| k IH]; intros Hk i nd Hi.
  - done.
  - rewrite seq_S, foldl_app. simpl.
    set (mk := foldl (Pipeline.link_index impl) m0 (seq 0 k)) in *.
    unfold Pipeline.link_index.
    destruct (lookup_lt_is_Some_2 impl k) as [a Ha]; [lia |].
    destruct (lookup_lt_is_Some_2 impl (k + 1)) as [b Hb]; [lia |].
    rewrite Ha, Hb. simpl. rewrite lookup_insert.
    destruct (decide (node_id a = node_id nd)) as [Heq | Hne].
    + assert (k = i) as <- by (by eapply node_id_inj_lookup).
      rewrite decide_True by lia. by rewrite <- Nat.add_1_r, Hb.
    + rewrite (IH ltac:(lia) i nd Hi).
      assert (i ≠ k) by (intros ->; congruence).
      destruct (decide (i < k)).
      * by rewrite decide_True by lia.
      * by rewrite decide_False by lia.
Qed.

Lemma link_fold_rest (impl : list Node) m0 l :
  let m := foldl (Pipeline.link_index impl) m0 l in
  heap m = heap m0 /\ contexts m = contexts m0 /\ runners m = runners m0.
Proof.
  revert m0. induction l as [| k l IH]; intros m0; simpl; [done |].
  destruct (IH (Pipeline.link_index impl m0 k)) as (-> & -> & ->).
  unfold Pipeline.link_index.
  by destruct (impl !! k), (impl !! (k + 1)).
Qed.

(** The chain that [__init__] leaves in the store, when no chaining
    policy object is listed twice. *)
Lemma init_linked transport policies m :
  NoDup (chaining_addrs policies) ->
  linked (nexts (Pipeline.__init__ transport policies m).2)
         (Pipeline._impl_policies (Pipeline.__init__ transport policies m).1)
         transport.
Proof.
  intros Hnd. unfold Pipeline.__init__.
  pose proof (wrap_policies_NoDup policies (runners m) Hnd) as Himpl.
  destruct (Pipeline.wrap_policies policies (runners m)) as [impl n].
  simpl in Himpl.
  set (m0 := mkMem _ _ _ n _).
  set (m1 := foldl (Pipeline.link_index impl) m0 (seq 0 (length impl - 1))).
  intros i nd Hi. simpl in Hi.
  pose proof (lookup_lt_Some _ _ _ Hi) as Hlt.
  rewrite last_lookup.
  destruct (lookup_lt_is_Some_2 impl (pred (length impl))) as [z Hz]; [lia |].
  rewrite Hz. simpl. rewrite lookup_insert.
  destruct (decide (node_id z = node_id nd)) as [Heq | Hne].
  - assert (pred (length impl) = i) as Hlast
      by (by eapply node_id_inj_lookup).
    by rewrite (lookup_ge_None_2 impl (S i)) by lia.
  - assert (i ≠ pred (length impl)) by (intros ->; congruence).
    unfold m1. rewrite (link_fold_nexts impl m0 _ Himpl (le_n _) i nd Hi).
    rewrite decide_True by lia.
    destruct (lookup_lt_is_Some_2 impl (S i)) as [b Hb]; [lia |].
    by rewrite Hb.
Qed.

Lemma init_impl_policies transport policies m :
  Pipeline._impl_policies (Pipeline.__init__ transport policies m).1 =
  (Pipeline.wrap_policies policies (runners m)).1 /\
  Pipeline._transport (Pipeline.__init__ transport policies m).1 = transport.
Proof.
  unfold Pipeline.__init__.
  by destruct (Pipeline.wrap_policies policies (runners m)) as [impl n].
Qed.

Lemma wrap_policies_runners policies n :
  (Pipeline.wrap_policies policies n).2 =
    n + length (List.filter is_sansio policies) /\
  forall i k p,
    (Pipeline.wrap_policies policies n).1 !! i = Some (RunnerNode k p) ->
    n <= k < (Pipeline.wrap_policies policies n).2.
Proof.
  revert n. induction policies as [| [p | p | | p] rest IH]; intros n; simpl.
  - split; [lia | by intros i k p [=]].
  - destruct (IH (S n)) as [Hn Hk].
    destruct (Pipeline.wrap_policies rest (S n)) as [l n']. simpl in *.
    split; [lia |]. intros [| i] k q Hi.
    + injection Hi as <- _. lia.
    + apply Hk in Hi. lia.
  - destruct (IH n) as [Hn Hk].
    destruct (Pipeline.wrap_policies rest n) as [l n']. simpl in *.
    split; [lia |]. intros [| i] k q Hi; [done |]. by apply Hk in Hi.
  - apply IH.
  - apply IH.
Qed.

Lemma init_runners transport policies m :
  runners (Pipeline.__init__ transport policies m).2 =
  (Pipeline.wrap_policies policies (runners m)).2.
Proof.
  unfold Pipeline.__init__.
  destruct (Pipeline.wrap_policies policies (runners m)) as [impl n]. simpl.
  set (m0 := mkMem _ _ _ n _).
  destruct (link_fold_rest impl m0 (seq 0 (length impl - 1))) as (_ & _ & Hr).
  by destruct (last impl).
Qed.

(** C7, amended.  For every transport and every sequence of policies in
    which no chaining policy object that is true occurs twice, the
    constructor skips the entries that are false ([None], a chaining
    policy whose truth value is false) and makes one node for each other
    entry: a runner around each simple policy, which is a new object of
    the store (none of the runners that were there, and no two the
    same), the chaining policy itself otherwise.  It sets the [next] of
    each node to the node that follows it, and the [next] of the last
    node to a transport runner over the given transport; that node is
    the only one whose [next] is a transport runner.  The runners, the
    transport runner and [run] never assign a [next]: with policies
    that do not assign one either (a [PolicyProg] cannot), no send
    through a link, however deep, and no run of the pipeline changes a
    [next]. *)
Theorem chain_built_by_init transport policies m :
  let self := (Pipeline.__init__ transport policies m).1 in
  let m' := (Pipeline.__init__ transport policies m).2 in
  let impl := Pipeline._impl_policies self in
  NoDup (chaining_addrs policies) ->
  Forall2 wrapped (List.filter is_policy policies) impl /\
  (forall i n p, impl !! i = Some (RunnerNode n p) ->
                 runners m <= n < runners m') /\
  runners m' = runners m + length (List.filter is_sansio policies) /\
  NoDup (node_id <$> impl) /\
  Pipeline._transport self = transport /\
  linked (nexts m') impl transport /\
  (forall i nd sender,
      impl !! i = Some nd ->
      nexts m' !! node_id nd = Some (LinkTransportRunner sender) ->
      S i = length impl /\ sender = transport) /\
  (forall fuel link request m1 m2 evs r,
      send_link fuel link request m1 = Some (m2, evs, r) ->
      nexts m2 = nexts m1) /\
  (forall request kwargs m1 m2 evs r,
      Pipeline.run self request kwargs m1 = Some (m2, evs, r) ->
      nexts m2 = nexts m1).
Proof.
  intros self m' impl Hnd.
  destruct (init_impl_policies transport policies m) as [Himpl Htr].
  pose proof (init_linked transport policies m Hnd) as Hlinked.
  pose proof (init_runners transport policies m) as Hrun.
  destruct (wrap_policies_runners policies (runners m)) as [Hcount Hrange].
  fold self in Himpl, Htr, Hlinked. fold m' in Hlinked, Hrun.
  fold impl in Himpl, Hlinked.
  split; [| split; [| split; [| split; [| split; [done | split; [done |]]]]]].
  - rewrite Himpl. apply wrap_policies_wrapped.
  - intros i n p Hi. rewrite Himpl in Hi. rewrite Hrun. by eapply Hrange.
  - by rewrite Hrun.
  - rewrite Himpl. by apply wrap_policies_NoDup.
  - split; [| split].
    + intros i nd sender Hi Hnext.
      rewrite (Hlinked i nd Hi) in Hnext.
      destruct (impl !! S i) as [nd' |] eqn:Hs; [done |].
      injection Hnext as <-. split; [| done].
      apply lookup_ge_None in Hs. apply lookup_lt_Some in Hi. lia.
    + intros fuel link request m1 m2 evs r Hsend.
      by apply sound_send_link in Hsend as [(? & _) _].
    + intros request kwargs m1 m2 evs r Hrun'.
      by apply sound_run in Hrun' as [(? & _) _].
Qed.

Lemma chain_built_by_init_witness :
  let m := (built (answering_transport 200) [ArgSansIO (quiet_policy "x")]).2 in
  let policies := [ArgSansIO (quiet_policy "a"); ArgNone;
                   ArgHTTP (forwarding_policy 7);
                   ArgFalseHTTP (forwarding_policy 8);
                   ArgSansIO (quiet_policy "b")] in
  let self := (Pipeline.__init__ (answering_transport 200) policies m).1 in
  let m' := (Pipeline.__init__ (answering_transport 200) policies m).2 in
  NoDup (chaining_addrs policies) /\
  (forall i n p, Pipeline._impl_policies self !! i = Some (RunnerNode n p) ->
                 1 <= n < 3) /\
  linked (nexts m') (Pipeline._impl_policies self) (answering_transport 200).
Proof.
  intros m policies self m'.
  assert (NoDup (chaining_addrs policies)) as Hnd.
  { simpl. apply NoDup_singleton. }
  split; [exact Hnd |].
  destruct (chain_built_by_init (answering_transport 200) policies m Hnd)
    as (_ & Hnew & _ & _ & _ & Hlinked & _).
  split; [exact Hnew | exact Hlinked].
Defined.

(** C7 as stated fails on two lists.  The same chaining policy object
    listed twice: the constructor sets its [next] to itself and then to
    the transport runner, so the first node does not point to the
    second.  A chaining policy whose truth value is false: the
    constructor skips it, and it is not kept in the chain. *)
Lemma chain_as_specified_fails :
  ¬ chain_as_specified (answering_transport 200)
      [ArgHTTP (forwarding_policy 7); ArgHTTP (forwarding_policy 7)]
      empty_store /\
  ¬ chain_as_specified (answering_transport 200)
      [ArgFalseHTTP (forwarding_policy 7)] empty_store.
Proof.
  split.
  - unfold chain_as_specified.
    destruct (Pipeline.__init__ _ _ _) as [self m'] eqn:Hinit.
    vm_compute in Hinit. injection Hinit as <- <-.
    intros [_ Hlinked].
    specialize (Hlinked 0 (PolicyNode (forwarding_policy 7)) eq_refl).
    vm_compute in Hlinked. discriminate.
  - unfold chain_as_specified.
    destruct (Pipeline.__init__ _ _ _) as [self m'] eqn:Hinit.
    vm_compute in Hinit. injection Hinit as <- <-.
    intros [Hnodes _]. simpl in Hnodes. inversion Hnodes.
Qed.

(** ** A chain of runners runs as nested sends *)

Lemma bind_ext_frame {A B} (c : M A) (f g : A -> M B) m :
  sound c ->
  (forall a m1, frame m m1 -> f a m1 = g a m1) ->
  bind c f m = bind c g m.
Proof.
  intros Hc Hfg. unfold bind.
  destruct (c m) as [[[m1 evs1] [a | e]] |] eqn:Hcm; [| done | done].
  apply Hc in Hcm as [Hf _]. by rewrite (Hfg a m1 Hf).
Qed.

Lemma Runner_send_ext policy next1 next2 request m :
  (forall m1, frame m m1 -> next1 request m1 = next2 request m1) ->
  SansIOHTTPPolicyRunner.send policy next1 request m =
  SansIOHTTPPolicyRunner.send policy next2 request m.
Proof.
  intros Hn. unfold SansIOHTTPPolicyRunner.send.
  apply bind_ext_frame; [by apply sound_await_result |].
  intros _ m1 Hf. unfold bind at 1 3, try_except_Exception_reraise.
  by rewrite (Hn m1 Hf).
Qed.

Lemma linked_tail nx nd impl transport :
  linked nx (nd :: impl) transport -> linked nx impl transport.
Proof. intros Hl i nd' Hi. exact (Hl (S i) nd' Hi). Qed.

Lemma linked_head nx nd impl transport :
  linked nx (nd :: impl) transport ->
  nx !! node_id nd = Some (head_link impl transport).
Proof. intros Hl. rewrite (Hl 0 nd eq_refl). by destruct impl. Qed.

Lemma sound_chain_send policies sender request :
  sound (chain_send policies sender request).
Proof.
  revert request. induction policies as [| p rest IH]; intros request; simpl.
  - apply sound_TransportRunner_send.
  - by apply sound_Runner_send.
Qed.

Lemma send_link_runner fuel n policy request :
  send_link (S fuel) (LinkNode (RunnerNode n policy)) request =
  SansIOHTTPPolicyRunner.send policy
    (fun rq =>
       nx <- get_next (RunnerObj n) ;;
       match nx with
       | Some l => send_link fuel l rq
       | None => raise AttributeError
       end) request.
Proof. reflexivity. Qed.

Lemma get_next_bind {A} i l (f : Link -> M A) (g : M A) m :
  nexts m !! i = Some l ->
  (nx <- get_next i ;; match nx with Some l' => f l' | None => g end) m = f l m.
Proof.
  intros H. unfold bind, get_next. rewrite H.
  by destruct (f l m) as [[[? ?] ?] |].
Qed.

Lemma send_link_chain impl policies transport :
  runners_around impl policies ->
  forall request m,
    linked (nexts m) impl transport ->
    send_link (S (length impl)) (head_link impl transport) request m =
    chain_send policies transport request m.
Proof.
  induction 1 as [| nd p impl policies [n ->] _ IH]; intros request m Hl.
  - done.
  - cbn [length head_link chain_send]. rewrite send_link_runner.
    apply Runner_send_ext. intros m1 (Hnx & _).
    pose proof (linked_head _ _ _ _ Hl) as Hh. cbn [node_id] in Hh.
    rewrite (get_next_bind _ (head_link impl transport)) by (by rewrite Hnx).
    apply IH. rewrite Hnx. by eapply linked_tail.
Qed.

Lemma wrap_sansio_runners policies n :
  runners_around (Pipeline.wrap_policies (ArgSansIO <$> policies) n).1 policies.
Proof.
  revert n. induction policies as [| p rest IH]; intros n; simpl.
  - constructor.
  - specialize (IH (S n)). simpl in IH.
    destruct (Pipeline.wrap_policies _ (S n)) as [l n'].
    constructor; [by exists n | done].
Qed.

Lemma chaining_addrs_sansio policies :
  chaining_addrs (ArgSansIO <$> policies) = [].
Proof. by induction policies. Qed.

Lemma sound_prepare_multipart request :
  sound (Pipeline._prepare_multipart request).
Proof.
  apply sound_bind; [apply sound_prepare_multipart_mixed_request |].
  intros _. apply sound_prepare_multipart_body.
Qed.

(** On a store that holds the chain as built, the run of a pipeline of
    simple policies is the run of the nested sends. *)
Lemma run_simple policies transport m0 request kwargs m :
  nexts m = nexts (Pipeline.__init__ transport (ArgSansIO <$> policies) m0).2 ->
  Pipeline.run (Pipeline.__init__ transport (ArgSansIO <$> policies) m0).1
               request kwargs m =
  simple_run policies transport request kwargs m.
Proof.
  intros Hnx. unfold Pipeline.run, simple_run.
  pose proof (init_linked transport (ArgSansIO <$> policies) m0) as Hl.
  rewrite chaining_addrs_sansio in Hl. specialize (Hl (NoDup_nil_2 (A:=nat))).
  destruct (init_impl_policies transport (ArgSansIO <$> policies) m0)
    as [Himpl Htr].
  pose proof (wrap_sansio_runners policies (runners m0)) as Hr.
  rewrite <- Himpl in Hr.
  set (self := (Pipeline.__init__ transport (ArgSansIO <$> policies) m0).1) in *.
  apply bind_ext_frame; [apply sound_prepare_multipart |].
  intros _ m1 (Hnx1 & _).
  rewrite Htr.
  apply bind_ext_frame; [apply sound_new_context |].
  intros ctx m2 (Hnx2 & _).
  replace (Pipeline.first_node self)
    with (head_link (Pipeline._impl_policies self) transport)
    by (unfold Pipeline.first_node, head_link; by rewrite Htr).
  apply (send_link_chain _ _ _ Hr).
  by rewrite Hnx2, Hnx1, Hnx.
Qed.

(** ** Runs of simple policies that return *)

Lemma await_result_event ev ctx hook m m' evs r :
  _await_result ev ctx hook m = Some (m', evs, r) -> evs = [ev].
Proof. by intros (c & _ & _ & -> & _)%await_result_Some. Qed.

Lemma Runner_send_Ok policy next_send request m m' evs response :
  let name := sp_name policy in
  let rid := req_id (http_request request) in
  SansIOHTTPPolicyRunner.send policy next_send request m =
    Some (m', evs, Ok response) ->
  exists m1 m2 evs_next,
    _await_result (EvOnRequest name rid) (context request)
      (on_request policy rid) m = Some (m1, [EvOnRequest name rid], Ok tt) /\
    next_send request m1 = Some (m2, evs_next, Ok response) /\
    _await_result (EvOnResponse name rid) (context request)
      (on_response policy rid (http_response response)) m2 =
      Some (m', [EvOnResponse name rid], Ok tt) /\
    evs = EvOnRequest name rid :: evs_next ++ [EvOnResponse name rid].
Proof.
  intros name rid H. unfold SansIOHTTPPolicyRunner.send in H.
  fold name in H. fold rid in H.
  apply bind_Some in H as [(e & _ & [=]) | (m1 & evs1 & [] & evs' & H1 & H & ->)].
  apply bind_Some in H as [(e & _ & [=]) | (m2 & evs2 & resp & evs3 & H2 & H & ->)].
  apply bind_Some in H as [(e & _ & [=]) | (m3 & evs4 & [] & evs5 & H3 & H & ->)].
  injection H as <- <- <-.
  apply try_except_Some in H2
    as [(a & H2 & Ha) | [(e & _ & _ & He) |
        (? & ? & e & ? & r2 & _ & _ & _ & _ & Hr)]];
    [injection Ha as <- | discriminate | by destruct r2].
  pose proof (await_result_event _ _ _ _ _ _ _ H1) as ->.
  pose proof (await_result_event _ _ _ _ _ _ _ H3) as ->.
  exists m1, m2, evs2. repeat split; try done.
Qed.


Lemma simple_run_Some policies transport request kwargs m m' evs r :
  simple_run policies transport request kwargs m = Some (m', evs, r) ->
  (exists e, Pipeline._prepare_multipart request m = Some (m', evs, Raise e) /\
             r = Raise e) \/
  (exists m_p evs_p evs_c,
      Pipeline._prepare_multipart request m = Some (m_p, evs_p, Ok tt) /\
      chain_send policies transport
        (mkPipelineRequest request (length (contexts m_p)))
        (mkMem (heap m_p)
               (contexts m_p ++ [mkContext (Some transport) kwargs])
               (nexts m_p) (runners m_p) (schedule m_p)) = Some (m', evs_c, r) /\
      evs = evs_p ++ evs_c).
Proof.
  unfold simple_run. intros H.
  apply bind_Some in H as [(e & H & ->) | (m_p & evs_p & [] & evs2 & Hp & H & ->)].
  - left. by exists e.
  - right.
    apply bind_Some in H as [(e & [=] & _) | (m1 & evs1 & ctx & evs_c & Hn & H & ->)].
    injection Hn as <- <- <-.
    by exists m_p, evs_p, evs_c.
Qed.



(** ** One send through a runner, case by case *)

Section Runner_send_cases.
Variable policy : SansIOHTTPPolicy.
Variable next_send : PipelineRequest -> M PipelineResponse.
Variable request : PipelineRequest.
Let name := sp_name policy.
Let rid := req_id (http_request request).
Let ctx := context request.
Let send := SansIOHTTPPolicyRunner.send policy next_send request.

Lemma Runner_send_rejects m m1 e :
  _await_result (EvOnRequest name rid) ctx (on_request policy rid) m =
    Some (m1, [EvOnRequest name rid], Raise e) ->
  send m = Some (m1, [EvOnRequest name rid], Raise e).
Proof.
  intros H1. unfold send, SansIOHTTPPolicyRunner.send.
  fold name. fold rid. fold ctx. unfold bind at 1. by rewrite H1.
Qed.

Lemma Runner_send_returns m m1 m2 m3 evs response :
  _await_result (EvOnRequest name rid) ctx (on_request policy rid) m =
    Some (m1, [EvOnRequest name rid], Ok tt) ->
  next_send request m1 = Some (m2, evs, Ok response) ->
  _await_result (EvOnResponse name rid) ctx
    (on_response policy rid (http_response response)) m2 =
    Some (m3, [EvOnResponse name rid], Ok tt) ->
  send m = Some (m3, EvOnRequest name rid :: evs ++ [EvOnResponse name rid],
                 Ok response).
Proof.
  intros H1 H2 H3. unfold send, SansIOHTTPPolicyRunner.send.
  fold name. fold rid. fold ctx.
  unfold bind at 1. rewrite H1.
  unfold bind at 1, try_except_Exception_reraise. rewrite H2.
  unfold bind at 1. by rewrite H3.
Qed.

Lemma Runner_send_reraises m m1 m2 m3 evs e r3 :
  _await_result (EvOnRequest name rid) ctx (on_request policy rid) m =
    Some (m1, [EvOnRequest name rid], Ok tt) ->
  next_send request m1 = Some (m2, evs, Raise e) ->
  is_Exception e = true ->
  _await_result (EvOnException name rid) ctx (on_exception policy rid) m2 =
    Some (m3, [EvOnException name rid], r3) ->
  send m = Some (m3, EvOnRequest name rid :: evs ++ [EvOnException name rid],
                 match r3 with Ok _ => Raise e | Raise e' => Raise e' end).
Proof.
  intros H1 H2 He H3. unfold send, SansIOHTTPPolicyRunner.send.
  fold name. fold rid. fold ctx.
  unfold bind at 1. rewrite H1.
  unfold bind at 1, try_except_Exception_reraise. rewrite H2, He, H3.
  by destruct r3 as [[] | e3].
Qed.

Lemma Runner_send_passes m m1 m2 evs e :
  _await_result (EvOnRequest name rid) ctx (on_request policy rid) m =
    Some (m1, [EvOnRequest name rid], Ok tt) ->
  next_send request m1 = Some (m2, evs, Raise e) ->
  is_Exception e = false ->
  send m = Some (m2, EvOnRequest name rid :: evs, Raise e).
Proof.
  intros H1 H2 He. unfold send, SansIOHTTPPolicyRunner.send.
  fold name. fold rid. fold ctx.
  unfold bind at 1. rewrite H1.
  unfold bind at 1, try_except_Exception_reraise. by rewrite H2, He.
Qed.

End Runner_send_cases.

Lemma await_result_quiet ev ctx hook m :
  is_Some (contexts m !! ctx) ->
  (forall h o, (hook h o).2 = None) ->
  exists m1, _await_result ev ctx hook m = Some (m1, [ev], Ok tt) /\ frame m m1.
Proof.
  intros Hc Hq.
  destruct (await_result_total ev ctx hook m Hc) as (m1 & r1 & H & Hf & ->).
  exists m1. by rewrite Hq in H.
Qed.

(** ** Chains whose hooks never raise *)

Lemma never_raise_cons p rest rid :
  never_raise (p :: rest) rid ->
  ((forall h o, (on_request p rid h o).2 = None) /\
   (forall h o, (on_exception p rid h o).2 = None) /\
   (forall raw h o, (on_response p rid raw h o).2 = None)) /\
  never_raise rest rid.
Proof.
  intros H. split.
  - repeat split; intros; by apply (H p (list_elem_of_here _ _)).
  - intros q Hq. apply H. by apply list_elem_of_further.
Qed.

Lemma chain_send_returns policies sender request m raw :
  let rid := req_id (http_request request) in
  never_raise policies rid ->
  (forall kwargs h, (tr_send sender rid kwargs h).2 = Ok raw) ->
  is_Some (contexts m !! context request) ->
  exists m' sent_kwargs,
    chain_send policies sender request m =
      Some (m',
            on_request_calls policies rid ++
            [EvTransportSend (tr_name sender) rid sent_kwargs] ++
            on_response_calls (rev policies) rid,
            Ok (mkPipelineResponse (http_request request) raw
                                   (context request))) /\
    frame m m'.
Proof.
  intros rid Hq Hsend. revert m.
  induction policies as [| p rest IH]; intros m Hc.
  - destruct Hc as [c Hc]. simpl.
    rewrite (TransportRunner_send_eq _ _ _ _ Hc). fold rid. rewrite Hsend.
    eexists _, _. split; [reflexivity |].
    eapply frame_trans; [apply frame_set_options | apply frame_set_heap].
  - apply never_raise_cons in Hq as [(Hq1 & _ & Hq3) Hq].
    destruct (await_result_quiet (EvOnRequest (sp_name p) rid)
                (context request) (on_request p rid) m Hc (Hq1))
      as (m1 & H1 & Hf1).
    destruct (IH Hq m1 (frame_lookup _ _ _ Hf1 Hc))
      as (m2 & sent & H2 & Hf2).
    assert (is_Some (contexts m2 !! context request)) as Hc2
      by (eapply frame_lookup; [exact Hf2 | by eapply frame_lookup]).
    destruct (await_result_quiet (EvOnResponse (sp_name p) rid)
                (context request) (on_response p rid raw) m2 Hc2 (Hq3 raw))
      as (m3 & H3 & Hf3).
    exists m3, sent. split.
    + simpl. rewrite (Runner_send_returns _ _ _ _ _ _ _ _ _ H1 H2 H3).
      unfold on_request_calls, on_response_calls. simpl.
      rewrite fmap_app. simpl. fold rid. by rewrite <- !app_assoc.
    + eapply frame_trans; [exact Hf1 |]. by eapply frame_trans.
Qed.

Lemma chain_send_raises policies sender request m e :
  let rid := req_id (http_request request) in
  never_raise policies rid ->
  (forall kwargs h, (tr_send sender rid kwargs h).2 = Raise e) ->
  is_Some (contexts m !! context request) ->
  exists m' sent_kwargs,
    chain_send policies sender request m =
      Some (m',
            on_request_calls policies rid ++
            [EvTransportSend (tr_name sender) rid sent_kwargs] ++
            (if is_Exception e then on_exception_calls (rev policies) rid
             else []),
            Raise e) /\
    frame m m'.
Proof.
  intros rid Hq Hsend. revert m.
  induction policies as [| p rest IH]; intros m Hc.
  - destruct Hc as [c Hc]. simpl.
    rewrite (TransportRunner_send_eq _ _ _ _ Hc). fold rid. rewrite Hsend.
    eexists _, _. split.
    + by destruct (is_Exception e).
    + eapply frame_trans; [apply frame_set_options | apply frame_set_heap].
  - apply never_raise_cons in Hq as [(Hq1 & Hq2 & _) Hq].
    destruct (await_result_quiet (EvOnRequest (sp_name p) rid)
                (context request) (on_request p rid) m Hc (Hq1))
      as (m1 & H1 & Hf1).
    destruct (IH Hq m1 (frame_lookup _ _ _ Hf1 Hc))
      as (m2 & sent & H2 & Hf2).
    assert (is_Some (contexts m2 !! context request)) as Hc2
      by (eapply frame_lookup; [exact Hf2 | by eapply frame_lookup]).
    destruct (is_Exception e) eqn:He.
    + destruct (await_result_quiet (EvOnException (sp_name p) rid)
                  (context request) (on_exception p rid) m2 Hc2 Hq2)
        as (m3 & H3 & Hf3).
      exists m3, sent. split.
      * simpl. rewrite (Runner_send_reraises _ _ _ _ _ _ _ _ _ _ H1 H2 He H3).
        unfold on_request_calls, on_exception_calls. simpl.
        rewrite fmap_app. simpl. fold rid. by rewrite <- !app_assoc.
      * eapply frame_trans; [exact Hf1 |]. by eapply frame_trans.
    + exists m2, sent. split.
      * simpl. rewrite (Runner_send_passes _ _ _ _ _ _ _ _ H1 H2 He).
        unfold on_request_calls. simpl. fold rid.
        done.
      * by eapply frame_trans.
Qed.

Lemma simple_run_after_prepare policies transport request kwargs m m_p evs_p :
  Pipeline._prepare_multipart request m = Some (m_p, evs_p, Ok tt) ->
  simple_run policies transport request kwargs m =
  match chain_send policies transport
          (mkPipelineRequest request (length (contexts m_p)))
          (mkMem (heap m_p)
                 (contexts m_p ++ [mkContext (Some transport) kwargs])
                 (nexts m_p) (runners m_p) (schedule m_p))
  with
  | Some (m', evs_c, r) => Some (m', evs_p ++ evs_c, r)
  | None => None
  end.
Proof.
  intros Hp. unfold simple_run. unfold bind at 1. rewrite Hp.
  unfold bind at 1, new_context.
  destruct (chain_send _ _ _ _) as [[[m' evs_c] r] |]; [| done].
  reflexivity.
Qed.

Lemma never_raise_quiet names rid :
  never_raise (quiet_policy <$> names) rid.
Proof.
  intros p Hp h o. apply list_elem_of_fmap in Hp as (name & -> & _). done.
Qed.

(** X2.  The status code is not looked at.  A pipeline built from simple
    policies whose hooks do not raise, run on a store that holds its
    chain, with a transport that answers with the response [raw]: the
    run returns [raw], wrapped with the request and the context of the
    run, whatever the status code of [raw]. *)
Theorem run_returns_response_of_any_status
    policies transport m0 request kwargs m m_p evs_p raw :
  let self := (Pipeline.__init__ transport (ArgSansIO <$> policies) m0).1 in
  let rid := req_id request in
  nexts m = nexts (Pipeline.__init__ transport (ArgSansIO <$> policies) m0).2 ->
  Pipeline._prepare_multipart request m = Some (m_p, evs_p, Ok tt) ->
  never_raise policies rid ->
  (forall sent_kwargs h, (tr_send transport rid sent_kwargs h).2 = Ok raw) ->
  exists m' evs,
    Pipeline.run self request kwargs m =
      Some (m', evs,
            Ok (mkPipelineResponse request raw (length (contexts m_p)))).
Proof.
  intros self rid Hnx Hp Hq Hsend. unfold self.
  rewrite (run_simple _ _ _ _ _ _ Hnx).
  rewrite (simple_run_after_prepare _ _ _ _ _ _ _ Hp).
  set (m1 := mkMem _ _ _ _ _).
  destruct (chain_send_returns policies transport
              (mkPipelineRequest request (length (contexts m_p))) m1 raw
              Hq Hsend) as (m' & sent & -> & _).
  { unfold m1. simpl. apply lookup_lt_is_Some. rewrite length_app. simpl. lia. }
  by eexists _, _.
Qed.

Lemma run_returns_response_of_any_status_witness :
  result_of (run_built (answering_transport 500)
               (ArgSansIO <$> (quiet_policy <$> ["a"; "b"]))
               (plain_request 1) sample_kwargs) =
  Some (Ok (mkPipelineResponse (plain_request 1) (response_of 500) 0)).
Proof.
  destruct (run_returns_response_of_any_status
              (quiet_policy <$> ["a"; "b"]) (answering_transport 500)
              empty_store (plain_request 1) sample_kwargs
              (built (answering_transport 500)
                 (ArgSansIO <$> (quiet_policy <$> ["a"; "b"]))).2
              _ _ (response_of 500) eq_refl eq_refl
              (never_raise_quiet _ _) (fun _ _ => eq_refl))
    as (m' & evs & Hrun).
  unfold run_built, built in *. rewrite Hrun. reflexivity.
Defined.

(** X3.  A failure of the transport.  Same pipeline, with a transport that
    raises [e]: the run raises [e]; the log is the preparation, then
    [on_request] of every policy in the order of the list, then the call
    of the transport, then, if [e] is an instance of [Exception],
    [on_exception] of every policy in the reverse order, and nothing
    else if it is not; [on_response] is never called. *)
Theorem transport_failure_reaches_every_policy
    policies transport m0 request kwargs m m_p evs_p e :
  let self := (Pipeline.__init__ transport (ArgSansIO <$> policies) m0).1 in
  let rid := req_id request in
  nexts m = nexts (Pipeline.__init__ transport (ArgSansIO <$> policies) m0).2 ->
  Pipeline._prepare_multipart request m = Some (m_p, evs_p, Ok tt) ->
  never_raise policies rid ->
  (forall sent_kwargs h, (tr_send transport rid sent_kwargs h).2 = Raise e) ->
  exists m' sent_kwargs,
    Pipeline.run self request kwargs m =
      Some (m',
            evs_p ++ on_request_calls policies rid ++
            [EvTransportSend (tr_name transport) rid sent_kwargs] ++
            (if is_Exception e then on_exception_calls (rev policies) rid
             else []),
            Raise e).
Proof.
  intros self rid Hnx Hp Hq Hsend. unfold self.
  rewrite (run_simple _ _ _ _ _ _ Hnx).
  rewrite (simple_run_after_prepare _ _ _ _ _ _ _ Hp).
  set (m1 := mkMem _ _ _ _ _).
  destruct (chain_send_raises policies transport
              (mkPipelineRequest request (length (contexts m_p))) m1 e
              Hq Hsend) as (m' & sent & -> & _).
  { unfold m1. simpl. apply lookup_lt_is_Some. rewrite length_app. simpl. lia. }
  by eexists _, _.
Qed.

Lemma transport_failure_reaches_every_policy_witness :
  (exists sent_kwargs,
     events_of (run_built (raising_transport ConnectionError)
                  (ArgSansIO <$> (quiet_policy <$> ["a"; "b"]))
                  (plain_request 1) sample_kwargs) =
     [EvOnRequest "a" 1; EvOnRequest "b" 1;
      EvTransportSend "transport" 1 sent_kwargs;
      EvOnException "b" 1; EvOnException "a" 1]) /\
  (exists sent_kwargs,
     events_of (run_built (raising_transport KeyboardInterrupt)
                  (ArgSansIO <$> (quiet_policy <$> ["a"; "b"]))
                  (plain_request 1) sample_kwargs) =
     [EvOnRequest "a" 1; EvOnRequest "b" 1;
      EvTransportSend "transport" 1 sent_kwargs]).
Proof.
  split.
  - destruct (transport_failure_reaches_every_policy
                (quiet_policy <$> ["a"; "b"]) (raising_transport ConnectionError)
                empty_store (plain_request 1) sample_kwargs
                (built (raising_transport ConnectionError)
                   (ArgSansIO <$> (quiet_policy <$> ["a"; "b"]))).2
                _ _ ConnectionError eq_refl eq_refl
                (never_raise_quiet _ _) (fun _ _ => eq_refl))
      as (m' & sent & Hrun).
    exists sent. unfold run_built, built in *. rewrite Hrun. reflexivity.
  - destruct (transport_failure_reaches_every_policy
                (quiet_policy <$> ["a"; "b"])
                (raising_transport KeyboardInterrupt)
                empty_store (plain_request 1) sample_kwargs
                (built (raising_transport KeyboardInterrupt)
                   (ArgSansIO <$> (quiet_policy <$> ["a"; "b"]))).2
                _ _ KeyboardInterrupt eq_refl eq_refl
                (never_raise_quiet _ _) (fun _ _ => eq_refl))
      as (m' & sent & Hrun).
    exists sent. unfold run_built, built in *. rewrite Hrun. reflexivity.
Defined.

(** ** A hook [on_request] that raises *)

Lemma on_exception_calls_cons q rest rid :
  on_exception_calls (rev (q :: rest)) rid =
  on_exception_calls (rev rest) rid ++ [EvOnException (sp_name q) rid].
Proof. unfold on_exception_calls. simpl. by rewrite fmap_app. Qed.

Lemma chain_send_rejected P1 p P2 sender request m m1 evs1 m2 e :
  let rid := req_id (http_request request) in
  Pipeline.apply_on_request P1 request m = Some (m1, evs1, Ok tt) ->
  _await_result (EvOnRequest (sp_name p) rid) (context request)
    (on_request p rid) m1 = Some (m2, [EvOnRequest (sp_name p) rid], Raise e) ->
  exists m' unwind e',
    chain_send (P1 ++ p :: P2) sender request m =
      Some (m',
            on_request_calls P1 rid ++ [EvOnRequest (sp_name p) rid] ++ unwind,
            Raise e') /\
    evs1 = on_request_calls P1 rid /\
    unwind `prefix_of` on_exception_calls (rev P1) rid /\
    (is_Exception e' = true -> unwind = on_exception_calls (rev P1) rid) /\
    (e' = e \/
     exists q h o, q ∈ P1 /\ (on_exception q rid h o).2 = Some e') /\
    frame m m'.
Proof.
  intros rid. revert m evs1.
  induction P1 as [| q P1 IH]; intros m evs1 Happly Hp.
  - injection Happly as <- <-.
    exists m2, [], e. simpl. fold rid.
    rewrite (Runner_send_rejects _ _ _ _ _ _ Hp).
    split; [done | split; [done | split; [apply prefix_nil | ]]].
    split; [done | split; [by left |]].
    by apply sound_await_result in Hp as [? _].
  - simpl in Happly.
    apply bind_Some in Happly
      as [(? & _ & [=]) | (ma & evsa & [] & evs' & Ha & Happly & ->)].
    pose proof (await_result_event _ _ _ _ _ _ _ Ha) as ->.
    assert (is_Some (contexts m !! context request)) as Hc.
    { apply await_result_Some in Ha as (c & Hc & _). by eexists. }
    pose proof Ha as Hfa. apply sound_await_result in Hfa as [Hfa _]; [| done].
    destruct (IH ma evs' Happly Hp)
      as (m'' & unw & e'' & Hsend & -> & Hpre & Hfull & Horigin & Hf).
    assert (is_Some (contexts m'' !! context request)) as Hc''.
    { eapply frame_lookup; [exact Hf |]. by eapply frame_lookup. }
    destruct (is_Exception e'') eqn:He.
    + destruct (await_result_total (EvOnException (sp_name q) rid)
                  (context request) (on_exception q rid) m'' Hc'')
        as (m3 & r3 & H3 & Hf3 & Hr3).
      exists m3, (unw ++ [EvOnException (sp_name q) rid]),
             (match r3 with Ok _ => e'' | Raise e3 => e3 end).
      split; [| split; [done | split; [| split; [| split]]]].
      * simpl. fold rid.
        rewrite (Runner_send_reraises _ _ _ _ _ _ _ _ _ _ Ha Hsend He H3).
        unfold on_request_calls. simpl. rewrite <- !app_assoc. simpl.
        by destruct r3.
      * rewrite on_exception_calls_cons, (Hfull eq_refl). done.
      * intros _. by rewrite on_exception_calls_cons, (Hfull eq_refl).
      * destruct r3 as [[] | e3].
        -- destruct Horigin as [-> | (q' & h & o & Hq' & Hraise)]; [by left |].
           right. exists q', h, o. split; [by apply list_elem_of_further | done].
        -- right. exists q, (heap m''),
             (default ∅ (options_at m'' (context request))).
           split; [apply list_elem_of_here |].
           destruct (on_exception q rid _ _).2; [by injection Hr3 as -> | done].
      * eapply frame_trans; [exact Hfa |]. by eapply frame_trans.
    + exists m'', unw, e''.
      split; [| split; [done | split; [| split; [| split]]]].
      * simpl. fold rid.
        rewrite (Runner_send_passes _ _ _ _ _ _ _ _ Ha Hsend He).
        unfold on_request_calls. by simpl.
      * rewrite on_exception_calls_cons. by apply prefix_app_r.
      * by rewrite He.
      * destruct Horigin as [-> | (q' & h & o & Hq' & Hraise)]; [by left |].
        right. exists q', h, o. split; [by apply list_elem_of_further | done].
      * by eapply frame_trans.
Qed.

(** ** What the preparation of a multipart request logs *)

Lemma emits_ret {A} P (a : A) : emits P (ret a).
Proof. by intros m m' evs r [= <- <- <-]. Qed.

Lemma emits_bind {A B} P (c : M A) (f : A -> M B) :
  emits P c -> (forall a, emits P (f a)) -> emits P (bind c f).
Proof.
  intros Hc Hf m m' evs r H.
  apply bind_Some in H as [(e & H & ->) | (m1 & evs1 & a & evs2 & H1 & H2 & ->)].
  - by apply Hc in H.
  - apply Hc in H1. apply Hf in H2. by apply Forall_app.
Qed.

Lemma emits_await_result (P : Event -> Prop) ev ctx hook :
  P ev -> emits P (_await_result ev ctx hook).
Proof.
  intros Hev m m' evs r H. apply await_result_event in H as ->.
  by apply Forall_singleton.
Qed.

Lemma emits_new_context P transport kwargs :
  emits P (new_context transport kwargs).
Proof. by intros m m' evs r [= <- <- <-]. Qed.

Lemma emits_apply_on_request policies pipeline_request :
  emits prepare_event (Pipeline.apply_on_request policies pipeline_request).
Proof.
  induction policies as [| policy rest IH]; simpl; [apply emits_ret |].
  apply emits_bind; [by apply emits_await_result | done].
Qed.

Lemma emits_prepare_multipart_mixed_request request :
  emits prepare_event (Pipeline._prepare_multipart_mixed_request request).
Proof.
  intros m m' evs r H.
  destruct (prepare_multipart_mixed_request_returns 0 request m ltac:(lia))
    as (m1 & evs1 & r1 & H1 & _ & He & _).
  rewrite H in H1. injection H1 as <- <- <-.
  by apply on_request_event_prepare_event.
Qed.

Lemma emits_prepare_multipart request :
  emits prepare_event (Pipeline._prepare_multipart request).
Proof.
  apply emits_bind; [apply emits_prepare_multipart_mixed_request |].
  intros _. unfold Pipeline.prepare_multipart_body.
  destruct (multipart_mixed_info request); [| apply emits_ret].
  intros m m' evs r H.
  destruct (serialize_parts request (heap m)) as [h res].
  injection H as <- <- <-. by apply Forall_singleton.
Qed.

Lemma prepare_event_not_send evs :
  Forall prepare_event evs -> Forall not_transport_send evs.
Proof. intros H. eapply Forall_impl; [exact H |]. by intros []. Qed.

Lemma on_request_calls_not_send policies rid :
  Forall not_transport_send (on_request_calls policies rid).
Proof. apply Forall_fmap, Forall_true. done. Qed.

Lemma on_exception_calls_not_send policies rid :
  Forall not_transport_send (on_exception_calls policies rid).
Proof. apply Forall_fmap, Forall_true. done. Qed.

(** X4.  A failure before the send.  A pipeline built from simple policies,
    run on a store that holds its chain, in which [on_request] of the
    policies [P1] returns and [on_request] of the next policy [p] raises
    [e]: the run raises, the transport is never called, and after
    [on_request] of [p] nothing is called but [on_exception] of policies
    of [P1], last listed first: of all of them when the exception raised
    at the end is an instance of [Exception].  The exception raised is
    [e], or one raised by such an [on_exception]. *)
Theorem on_request_failure_never_reaches_transport
    P1 p P2 transport m0 request kwargs m m_p evs_p m1 evs1 m2 e :
  let policies := P1 ++ p :: P2 in
  let self := (Pipeline.__init__ transport (ArgSansIO <$> policies) m0).1 in
  let rid := req_id request in
  let ctx := length (contexts m_p) in
  let m_c := mkMem (heap m_p)
                   (contexts m_p ++ [mkContext (Some transport) kwargs])
                   (nexts m_p) (runners m_p) (schedule m_p) in
  nexts m = nexts (Pipeline.__init__ transport (ArgSansIO <$> policies) m0).2 ->
  Pipeline._prepare_multipart request m = Some (m_p, evs_p, Ok tt) ->
  Pipeline.apply_on_request P1 (mkPipelineRequest request ctx) m_c =
    Some (m1, evs1, Ok tt) ->
  _await_result (EvOnRequest (sp_name p) rid) ctx (on_request p rid) m1 =
    Some (m2, [EvOnRequest (sp_name p) rid], Raise e) ->
  exists m' unwind e',
    Pipeline.run self request kwargs m =
      Some (m',
            evs_p ++ on_request_calls P1 rid ++
            [EvOnRequest (sp_name p) rid] ++ unwind,
            Raise e') /\
    unwind `prefix_of` on_exception_calls (rev P1) rid /\
    (is_Exception e' = true -> unwind = on_exception_calls (rev P1) rid) /\
    (e' = e \/ exists q h o, q ∈ P1 /\ (on_exception q rid h o).2 = Some e') /\
    Forall not_transport_send
      (evs_p ++ on_request_calls P1 rid ++
       [EvOnRequest (sp_name p) rid] ++ unwind).
Proof.
  intros policies self rid ctx m_c Hnx Hp Happly Hraise. unfold self.
  rewrite (run_simple _ _ _ _ _ _ Hnx).
  rewrite (simple_run_after_prepare _ _ _ _ _ _ _ Hp). fold ctx. fold m_c.
  destruct (chain_send_rejected P1 p P2 transport
              (mkPipelineRequest request ctx) m_c m1 evs1 m2 e Happly Hraise)
    as (m' & unwind & e' & Hsend & _ & Hpre & Hfull & Horigin & _).
  unfold policies. rewrite Hsend.
  exists m', unwind, e'. simpl. fold rid.
  split; [done | split; [done | split; [done | split; [done |]]]].
  apply Forall_app. split.
  - apply prepare_event_not_send. by apply emits_prepare_multipart in Hp.
  - apply Forall_app. split; [apply on_request_calls_not_send |].
    apply Forall_cons. split; [done |].
    destruct Hpre as [k Hk]. simpl in Hk.
    pose proof (on_exception_calls_not_send (rev P1) (req_id request)) as Hall.
    rewrite Hk in Hall. by apply Forall_app in Hall as [? _].
Qed.

Lemma on_request_failure_never_reaches_transport_witness :
  events_of (run_built (answering_transport 200)
               (ArgSansIO <$> rejecting_chain) (plain_request 1)
               sample_kwargs) =
    [EvOnRequest "a" 1; EvOnRequest "b" 1; EvOnException "a" 1] /\
  result_of (run_built (answering_transport 200)
               (ArgSansIO <$> rejecting_chain) (plain_request 1)
               sample_kwargs) = Some (Raise ValueError).
Proof.
  assert (Pipeline.apply_on_request [quiet_policy "a"]
            (mkPipelineRequest (plain_request 1) 0) rejecting_store =
          Some (rejecting_store, [EvOnRequest "a" 1], Ok tt)) as Happly
    by (vm_compute; reflexivity).
  assert (_await_result (EvOnRequest "b" 1) 0
            (on_request (rejecting_policy "b" ValueError) 1) rejecting_store =
          Some (rejecting_store, [EvOnRequest "b" 1], Raise ValueError))
    as Hraise by (vm_compute; reflexivity).
  set (m := (built (answering_transport 200)
               (ArgSansIO <$> rejecting_chain)).2).
  assert (nexts m =
          nexts (Pipeline.__init__ (answering_transport 200)
                   (ArgSansIO <$> [quiet_policy "a"] ++
                      rejecting_policy "b" ValueError :: [quiet_policy "c"])
                   empty_store).2) as Hnx by reflexivity.
  assert (Pipeline._prepare_multipart (plain_request 1) m = Some (m, [], Ok tt))
    as Hp by reflexivity.
  destruct (on_request_failure_never_reaches_transport
              [quiet_policy "a"] (rejecting_policy "b" ValueError)
              [quiet_policy "c"] (answering_transport 200) empty_store
              (plain_request 1) sample_kwargs m m [] rejecting_store
              [EvOnRequest "a" 1] rejecting_store ValueError
              Hnx Hp Happly Hraise)
    as (m' & unwind & e' & Hrun & _ & Hfull & Horigin & _).
  destruct Horigin as [-> | (q & h & o & Hq & Hr)].
  - rewrite (Hfull eq_refl) in Hrun.
    assert (run_built (answering_transport 200)
              (ArgSansIO <$> rejecting_chain) (plain_request 1) sample_kwargs =
            Some (m', [EvOnRequest "a" 1; EvOnRequest "b" 1;
                       EvOnException "a" 1], Raise ValueError)) as ->
      by exact Hrun.
    split; reflexivity.
  - apply list_elem_of_singleton in Hq as ->. discriminate.
Defined.

(** ** The option bag after the send *)

(** X5.  The Transport Runner cleans the option bag of the context in
    place: after its send the context of the request is the same object
    with the same transport, its option bag is the former one without
    the three keys, every other context is untouched and none is made;
    a response is wrapped with that same context and the request. *)
Theorem transport_runner_cleans_in_place sender request m c :
  let ctx := context request in
  contexts m !! ctx = Some c ->
  exists m' evs r,
    TransportRunner.send sender request m = Some (m', evs, r) /\
    contexts m' !! ctx =
      Some (mkContext (ctx_transport c)
                      (cleanup_kwargs_for_transport (options c))) /\
    (forall j, j ≠ ctx -> contexts m' !! j = contexts m !! j) /\
    length (contexts m') = length (contexts m) /\
    (forall key, internal_key key ->
       (options <$> contexts m' !! ctx) ≫= (.!! key) = None) /\
    (forall response, r = Ok response ->
       resp_context response = ctx /\
       resp_http_request response = http_request request).
Proof.
  intros ctx Hc. rewrite (TransportRunner_send_eq _ _ _ _ Hc).
  eexists _, _, _. split; [reflexivity |].
  assert (contexts (set_options ctx
                      (cleanup_kwargs_for_transport (options c)) m) !! ctx =
          Some (mkContext (ctx_transport c)
                          (cleanup_kwargs_for_transport (options c)))) as Hnew
    by (by apply lookup_set_options_eq).
  split; [exact Hnew |]. split; [| split; [| split]].
  - intros j Hj. simpl. by rewrite list_lookup_alter_ne.
  - simpl. by rewrite length_alter.
  - intros key Hk. simpl in *. fold ctx. rewrite Hnew. simpl.
    by apply cleanup_kwargs_internal.
  - intros response Hr.
    destruct (tr_send _ _ _ _).2; [| done]. by injection Hr as <-.
Qed.

Lemma transport_runner_cleans_in_place_witness :
  (options <$> contexts sample_store !! 0) ≫= (.!! "enable_cae") =
    Some (VBool true) /\
  exists m',
    store_of (TransportRunner.send (answering_transport 200)
                sample_pipeline_request sample_store) = Some m' /\
    (options <$> contexts m' !! 0) ≫= (.!! "enable_cae") = None /\
    (options <$> contexts m' !! 0) ≫= (.!! "timeout") = Some (VInt 30).
Proof.
  split; [reflexivity |].
  destruct (transport_runner_cleans_in_place (answering_transport 200)
              sample_pipeline_request sample_store
              (mkContext None sample_kwargs) eq_refl)
    as (m' & evs & r & Hsend & Hctx & _ & _ & Hkeys & _).
  exists m'. rewrite Hsend. split; [reflexivity |]. split.
  - apply Hkeys. unfold internal_key, kwargs_to_remove.
    apply list_elem_of_further, list_elem_of_here.
  - simpl in Hctx. rewrite Hctx. reflexivity.
Defined.

Lemma TransportRunner_send_store sender request m m' evs r :
  TransportRunner.send sender request m = Some (m', evs, r) ->
  exists c,
    contexts m !! context request = Some c /\
    contexts m' !! context request =
      Some (mkContext (ctx_transport c)
                      (cleanup_kwargs_for_transport (options c))) /\
    forall response, r = Ok response -> resp_context response = context request.
Proof.
  intros H. destruct (contexts m !! context request) as [c |] eqn:Hc.
  - rewrite (TransportRunner_send_eq _ _ _ _ Hc) in H.
    injection H as <- <- <-. exists c. split; [done |]. split.
    + by apply lookup_set_options_eq.
    + intros response Hr.
      destruct (tr_send _ _ _ _).2; [| done]. by injection Hr as <-.
  - unfold TransportRunner.send, bind, get_options in H. by rewrite Hc in H.
Qed.

Lemma chain_send_keys_out policies sender request m m' evs response :
  let rid := req_id (http_request request) in
  Forall (fun p => keeps_keys_out p rid) policies ->
  chain_send policies sender request m = Some (m', evs, Ok response) ->
  resp_context response = context request /\
  exists c, contexts m' !! context request = Some c /\ keys_absent (options c).
Proof.
  intros rid Hkeep. revert m m' evs.
  induction Hkeep as [| p rest Hp _ IH]; intros m m' evs H; simpl in H.
  - apply TransportRunner_send_store in H as (c & _ & Hc' & Hresp).
    split; [by apply Hresp |]. eexists. split; [exact Hc' |].
    apply keys_absent_cleanup.
  - apply Runner_send_Ok in H as (m1 & m2 & evs_next & _ & Hnext & H3 & _).
    apply IH in Hnext as (Hresp & c2 & Hc2 & Habs).
    split; [done |].
    apply await_result_Some in H3 as (c & Hc & -> & _).
    rewrite Hc2 in Hc. injection Hc as <-.
    eexists. split.
    + simpl. rewrite list_lookup_alter_eq, Hc2. reflexivity.
    + simpl. by apply Hp.
Qed.

(** X6.  What the caller sees.  A pipeline built from simple policies
    whose [on_response] hooks put none of the three keys in the option
    bag, run with any call options: when the run returns, the context of
    the returned response, which is the context made for this run, has
    none of the three keys, even if they were among the call options. *)
Theorem returned_context_has_no_internal_key
    policies transport m0 request kwargs m m' evs response :
  let self := (Pipeline.__init__ transport (ArgSansIO <$> policies) m0).1 in
  nexts m = nexts (Pipeline.__init__ transport (ArgSansIO <$> policies) m0).2 ->
  Forall (fun p => keeps_keys_out p (req_id request)) policies ->
  Pipeline.run self request kwargs m = Some (m', evs, Ok response) ->
  length (contexts m) <= resp_context response /\
  exists c,
    contexts m' !! resp_context response = Some c /\
    forall key, internal_key key -> options c !! key = None.
Proof.
  intros self Hnx Hkeep Hrun. unfold self in Hrun.
  rewrite (run_simple _ _ _ _ _ _ Hnx) in Hrun.
  apply simple_run_Some in Hrun
    as [(e & _ & [=]) | (m_p & evs_p & evs_c & Hp & Hc & ->)].
  apply chain_send_keys_out in Hc as (-> & c & Hc & Habs); [| done].
  simpl. split; [| by exists c].
  by apply sound_prepare_multipart in Hp as [(_ & _ & ?) _].
Qed.

Lemma returned_context_has_no_internal_key_witness :
  exists m' response c,
    store_of (run_built (answering_transport 200)
                (ArgSansIO <$> [quiet_policy "a"; quiet_policy "b"])
                (plain_request 1) sample_kwargs) = Some m' /\
    result_of (run_built (answering_transport 200)
                 (ArgSansIO <$> [quiet_policy "a"; quiet_policy "b"])
                 (plain_request 1) sample_kwargs) = Some (Ok response) /\
    contexts m' !! resp_context response = Some c /\
    options c !! "enable_cae" = None /\
    options c !! "insecure_domain_change" = None.
Proof.
  unfold run_built, built.
  destruct (Pipeline.run _ _ _ _) as [[[m' evs] [response | e]] |] eqn:Hrun.
  - assert (Forall (fun p => keeps_keys_out p (req_id (plain_request 1)))
                   [quiet_policy "a"; quiet_policy "b"]) as Hkeep
      by (repeat constructor; intros raw h o Ho; exact Ho).
    destruct (returned_context_has_no_internal_key
                [quiet_policy "a"; quiet_policy "b"] (answering_transport 200)
                empty_store (plain_request 1) sample_kwargs _ m' evs response
                eq_refl Hkeep Hrun) as (_ & c & Hc & Hkeys).
    exists m', response, c. repeat split; try done.
    + apply Hkeys. unfold internal_key, kwargs_to_remove.
      apply list_elem_of_further, list_elem_of_here.
    + apply Hkeys. unfold internal_key, kwargs_to_remove.
      apply list_elem_of_here.
  - vm_compute in Hrun. discriminate.
  - vm_compute in Hrun. discriminate.
Defined.

(** ** The preparation of a multipart request *)

Lemma apply_on_request_Ok policies pipeline_request m m' evs :
  Pipeline.apply_on_request policies pipeline_request m = Some (m', evs, Ok tt) ->
  evs = on_request_calls policies (req_id (http_request pipeline_request)) /\
  length (contexts m') = length (contexts m).
Proof.
  revert m evs. induction policies as [| p rest IH]; intros m evs H; simpl in H.
  - by injection H as <- <-.
  - apply bind_Some in H as [(e & _ & [=]) | (m1 & evs1 & [] & evs2 & H1 & H2 & ->)].
    apply IH in H2 as [-> Hlen].
    apply await_result_Some in H1 as (c & _ & -> & -> & _).
    split; [done |]. rewrite Hlen. simpl. by rewrite length_alter.
Qed.

















(** A sub-request whose hook raises does not stop the others.  With the
    first thread served first and the reading thread served as soon as
    it has calls to cancel, the second sub-request is never prepared;
    with the threads served in the order of the list and the reading
    thread last, the hook runs on the second sub-request although the
    first has failed.  Both times the exception of the first is
    raised. *)
Example failure_of_a_part_and_the_other_parts :
  let batch := mkRequest 10
    (Some ([plain_request 11; plain_request 12],
           [mkSansIO "outer"
              (fun rid => if decide (rid = 11) then failing ValueError else quiet)
              (fun _ _ => quiet) (fun _ => quiet)],
           "batch", ∅))
    (fun h => (h, None)) in
  Pipeline._prepare_multipart batch (mkMem ∅ [] ∅ 0 [0; 0; 1]) =
    Some (mkMem ∅ [mkContext None ∅] ∅ 0 [], [EvOnRequest "outer" 11],
          Raise ValueError) /\
  events_of (Pipeline._prepare_multipart batch empty_store) =
    [EvOnRequest "outer" 11; EvOnRequest "outer" 12] /\
  result_of (Pipeline._prepare_multipart batch empty_store) =
    Some (Raise ValueError).
Proof. by vm_compute. Qed.

(** ** More on the constructor *)

Lemma wrap_policies_filter policies n :
  Pipeline.wrap_policies (List.filter is_policy policies) n =
  Pipeline.wrap_policies policies n.
Proof.
  revert n. induction policies as [| [p | p | | p] rest IH]; intros n; simpl;
    by rewrite ?IH.
Qed.

(** X8.  The constructor skips the false entries of the list: a list
    with [None] among the policies gives the same pipeline and the same
    store as the list without them; with nothing but [None], the
    pipeline has no node and sends straight to the transport. *)
Theorem init_skips_false_entries transport policies m :
  Pipeline.__init__ transport policies m =
    Pipeline.__init__ transport (List.filter is_policy policies) m /\
  (List.filter is_policy policies = [] ->
   Pipeline.first_node (Pipeline.__init__ transport policies m).1 =
     LinkTransportRunner transport /\
   (Pipeline.__init__ transport policies m).2 = m).
Proof.
  assert (Pipeline.__init__ transport policies m =
          Pipeline.__init__ transport (List.filter is_policy policies) m) as Heq.
  { unfold Pipeline.__init__. by rewrite wrap_policies_filter. }
  split; [exact Heq |]. intros Hnone. rewrite Heq, Hnone.
  split; [done |]. by destruct m.
Qed.

Lemma init_skips_false_entries_witness :
  List.filter is_policy [ArgNone; ArgNone] = [] /\
  events_of (run_built (answering_transport 200) [ArgNone; ArgNone]
               (plain_request 1) ∅) =
  [EvTransportSend "transport" 1 ∅].
Proof.
  split; [reflexivity |].
  destruct (init_skips_false_entries (answering_transport 200)
              [ArgNone; ArgNone] empty_store) as [Heq _].
  unfold run_built, built. rewrite Heq. reflexivity.
Defined.

Lemma link_fold_last (impl : list Node) m0 k :
  k <= length impl - 1 ->
  forall i nd, impl !! i = Some nd -> i < k ->
    (forall j nd', i < j < k -> impl !! j = Some nd' ->
                   node_id nd' ≠ node_id nd) ->
    nexts (foldl (Pipeline.link_index impl) m0 (seq 0 k)) !! node_id nd =
    LinkNode <$> impl !! S i.
Proof.
  induction k as [| k IH]; intros Hk i nd Hi Hlt Hlast; [lia |].
  rewrite seq_S, foldl_app. simpl.
  set (mk := foldl (Pipeline.link_index impl) m0 (seq 0 k)) in *.
  unfold Pipeline.link_index.
  destruct (lookup_lt_is_Some_2 impl k) as [a Ha]; [lia |].
  destruct (lookup_lt_is_Some_2 impl (k + 1)) as [b Hb]; [lia |].
  rewrite Ha, Hb. simpl.
  destruct (decide (i = k)) as [-> | Hne].
  - rewrite Hi in Ha. injection Ha as <-.
    by rewrite lookup_insert_eq, <- Nat.add_1_r, Hb.
  - rewrite lookup_insert_ne by (apply (Hlast k a); [lia | done]).
    apply IH; [lia | done | lia |].
    intros j nd' Hj. apply Hlast. lia.
Qed.

(** X9.  The [next] of a node object is set at each place where the
    object is listed, and the last place wins: after the constructor,
    for a node at a place [i] after which the same object is not listed
    again, [next] is the node at place [i + 1], or the transport runner
    if there is none.  A chaining policy listed twice thus sends on from
    its last place only. *)
Theorem next_follows_last_occurrence transport policies m i nd :
  let impl :=
    Pipeline._impl_policies (Pipeline.__init__ transport policies m).1 in
  let m' := (Pipeline.__init__ transport policies m).2 in
  impl !! i = Some nd ->
  (forall j nd', i < j -> impl !! j = Some nd' -> node_id nd' ≠ node_id nd) ->
  nexts m' !! node_id nd =
  Some (match impl !! S i with
        | Some nd' => LinkNode nd'
        | None => LinkTransportRunner transport
        end).
Proof.
  unfold Pipeline.__init__.
  destruct (Pipeline.wrap_policies policies (runners m)) as [impl n].
  simpl. intros Hi Hlast.
  set (m0 := mkMem _ _ _ n _).
  pose proof (lookup_lt_Some _ _ _ Hi) as Hlt.
  rewrite last_lookup.
  destruct (lookup_lt_is_Some_2 impl (pred (length impl))) as [z Hz]; [lia |].
  rewrite Hz. simpl.
  destruct (decide (i = pred (length impl))) as [-> | Hne].
  - rewrite Hi in Hz. injection Hz as <-.
    rewrite lookup_insert_eq.
    by rewrite (lookup_ge_None_2 impl (S (pred (length impl)))) by lia.
  - rewrite lookup_insert_ne by (apply (Hlast (pred (length impl)) z); [lia | done]).
    rewrite (link_fold_last impl m0 (length impl - 1) (le_n _) i nd Hi)
      by (lia || (intros j nd' Hj; apply Hlast; lia)).
    destruct (lookup_lt_is_Some_2 impl (S i)) as [b Hb]; [lia |].
    by rewrite Hb.
Qed.

Lemma next_follows_last_occurrence_witness :
  let policies := [ArgHTTP (forwarding_policy 7); ArgHTTP (forwarding_policy 8);
                   ArgHTTP (forwarding_policy 7)] in
  nexts (built (answering_transport 200) policies).2 !! PolicyObj 7 =
    Some (LinkTransportRunner (answering_transport 200)) /\
  nexts (built (answering_transport 200) policies).2 !! PolicyObj 8 =
    Some (LinkNode (PolicyNode (forwarding_policy 7))).
Proof.
  intros policies. split.
  - apply (next_follows_last_occurrence (answering_transport 200) policies
             empty_store 2 (PolicyNode (forwarding_policy 7)) eq_refl).
    intros j nd' Hj Hl. apply lookup_lt_Some in Hl. simpl in Hl. lia.
  - apply (next_follows_last_occurrence (answering_transport 200) policies
             empty_store 1 (PolicyNode (forwarding_policy 8)) eq_refl).
    intros j nd' Hj Hl.
    destruct j as [| [| [| j]]]; try lia; [| done].
    injection Hl as <-. discriminate.
Defined.

(** ** The contexts of other calls *)

Lemma untouched_refl n m : untouched n m m.
Proof. by intros j Hj. Qed.

Lemma untouched_trans n m1 m2 m3 :
  untouched n m1 m2 -> untouched n m2 m3 -> untouched n m1 m3.
Proof. intros H1 H2 j Hj. by rewrite H2, H1. Qed.

Lemma keeps_ret n {A} (a : A) : keeps_below n (ret a).
Proof. intros m m' evs r _ [= <- <- <-]. apply untouched_refl. Qed.

Lemma keeps_bind n {A B} (c : M A) (f : A -> M B) :
  sound c -> keeps_below n c -> (forall a, keeps_below n (f a)) ->
  keeps_below n (bind c f).
Proof.
  intros Hs Hc Hf m m' evs r Hn H.
  apply bind_Some in H as [(e & H & ->) | (m1 & evs1 & a & evs2 & H1 & H2 & ->)].
  - by eapply Hc.
  - eapply untouched_trans; [by eapply Hc |].
    eapply Hf; [| exact H2].
    apply Hs in H1 as [(_ & _ & Hlen) _]. lia.
Qed.

Lemma keeps_new_context_bind n {B} transport kwargs (f : nat -> M B) :
  (forall ctx, n <= ctx -> keeps_below n (f ctx)) ->
  keeps_below n (bind (new_context transport kwargs) f).
Proof.
  intros Hf m m' evs r Hn H.
  apply bind_Some in H as [(e & [=] & _) | (m1 & evs1 & a & evs2 & H1 & H2 & ->)].
  injection H1 as <- <- <-.
  intros j Hj.
  pose proof (Hf (length (contexts m)) Hn) as Hk. unfold keeps_below in Hk.
  apply Hk in H2; [| simpl; rewrite length_app; lia].
  rewrite (H2 j Hj). simpl. apply lookup_app_l. lia.
Qed.

Lemma keeps_await_result n ev ctx hook :
  n <= ctx -> keeps_below n (_await_result ev ctx hook).
Proof.
  intros Hctx m m' evs r _ H.
  apply await_result_Some in H as (c & _ & -> & _).
  intros j Hj. simpl. apply list_lookup_alter_ne. lia.
Qed.

Lemma keeps_try n {A} (c : M A) handler :
  sound c -> keeps_below n c -> keeps_below n handler ->
  keeps_below n (try_except_Exception_reraise c handler).
Proof.
  intros Hs Hc Hh m m' evs r Hn H.
  apply try_except_Some in H
    as [(a & H & _) | [(e & H & _ & _) |
        (m1 & evs1 & e & evs2 & r2 & H1 & _ & H2 & _ & _)]].
  - by eapply Hc.
  - by eapply Hc.
  - eapply untouched_trans; [by eapply Hc |].
    eapply Hh; [| exact H2].
    apply Hs in H1 as [(_ & _ & Hlen) _]. lia.
Qed.

Lemma keeps_TransportRunner_send n sender request :
  n <= context request -> keeps_below n (TransportRunner.send sender request).
Proof.
  intros Hctx m m' evs r _ H.
  destruct (contexts m !! context request) as [c |] eqn:Hc.
  - rewrite (TransportRunner_send_eq _ _ _ _ Hc) in H.
    injection H as <- <- <-.
    intros j Hj. simpl. apply list_lookup_alter_ne. lia.
  - unfold TransportRunner.send, bind, get_options in H. by rewrite Hc in H.
Qed.

Lemma keeps_chain_send n policies sender request :
  n <= context request -> keeps_below n (chain_send policies sender request).
Proof.
  intros Hctx. induction policies as [| p rest IH]; simpl.
  - by apply keeps_TransportRunner_send.
  - unfold SansIOHTTPPolicyRunner.send.
    apply keeps_bind;
      [by apply sound_await_result | by apply keeps_await_result |].
    intros _. apply keeps_bind.
    + apply sound_try; [apply sound_chain_send | by apply sound_await_result].
    + apply keeps_try;
        [apply sound_chain_send | done | by apply keeps_await_result].
    + intros response. apply keeps_bind;
        [by apply sound_await_result | by apply keeps_await_result |].
      intros _. apply keeps_ret.
Qed.

Lemma keeps_apply_on_request n policies pipeline_request :
  n <= context pipeline_request ->
  keeps_below n (Pipeline.apply_on_request policies pipeline_request).
Proof.
  intros Hctx. induction policies as [| p rest IH]; simpl; [apply keeps_ret |].
  apply keeps_bind;
    [by apply sound_await_result | by apply keeps_await_result | done].
Qed.

Lemma keeps_prepare_multipart_mixed_request n request :
  keeps_below n (Pipeline._prepare_multipart_mixed_request request).
Proof.
  intros m m' evs r Hn H.
  destruct (prepare_multipart_mixed_request_returns n request m Hn)
    as (m1 & evs1 & r1 & H1 & _ & _ & Hu).
  rewrite H in H1. by injection H1 as <- <- <-.
Qed.

Lemma keeps_prepare_multipart n request :
  keeps_below n (Pipeline._prepare_multipart request).
Proof.
  apply keeps_bind;
    [apply sound_prepare_multipart_mixed_request
    | apply keeps_prepare_multipart_mixed_request |].
  intros _. unfold Pipeline.prepare_multipart_body.
  destruct (multipart_mixed_info request); [| apply keeps_ret].
  intros m m' evs r _ H.
  destruct (serialize_parts request (heap m)) as [h res].
  injection H as <- <- <-. by intros j Hj.
Qed.

(** X10.  A run works on contexts of its own.  In a run of a pipeline
    built from simple policies, whatever the outcome, every context that
    was in the store before the call is left as it was: the context of
    the run and those of the sub-requests are new objects, and hooks and
    transport runner act on these only. *)
Theorem run_leaves_earlier_contexts_alone
    policies transport m0 request kwargs m m' evs r :
  let self := (Pipeline.__init__ transport (ArgSansIO <$> policies) m0).1 in
  nexts m = nexts (Pipeline.__init__ transport (ArgSansIO <$> policies) m0).2 ->
  Pipeline.run self request kwargs m = Some (m', evs, r) ->
  forall j, j < length (contexts m) -> contexts m' !! j = contexts m !! j.
Proof.
  intros self Hnx Hrun. unfold self in Hrun.
  rewrite (run_simple _ _ _ _ _ _ Hnx) in Hrun.
  assert (keeps_below (length (contexts m))
            (simple_run policies transport request kwargs)) as Hkeep.
  { apply keeps_bind;
      [apply sound_prepare_multipart | apply keeps_prepare_multipart |].
    intros _. apply keeps_new_context_bind.
    intros ctx Hctx. by apply keeps_chain_send. }
  by eapply Hkeep.
Qed.

Lemma run_leaves_earlier_contexts_alone_witness :
  exists m',
    store_of (Pipeline.run
                (built (answering_transport 200)
                   (ArgSansIO <$> [quiet_policy "a"; quiet_policy "b"])).1
                (plain_request 1) sample_kwargs store_with_earlier_context) =
      Some m' /\
    contexts m' !! 0 = Some (mkContext None sample_kwargs).
Proof.
  destruct (Pipeline.run _ _ _ _) as [[[m' evs] r] |] eqn:Hrun.
  - exists m'. split; [reflexivity |].
    assert (0 < length (contexts store_with_earlier_context)) as Hlt
      by (simpl; lia).
    exact (run_leaves_earlier_contexts_alone
             [quiet_policy "a"; quiet_policy "b"] (answering_transport 200)
             empty_store (plain_request 1) sample_kwargs
             store_with_earlier_context m' evs r eq_refl Hrun 0 Hlt).
  - vm_compute in Hrun. discriminate.
Defined.

(** ** More on [cleanup_kwargs_for_transport] *)

(** X11.  [cleanup_kwargs_for_transport] removes the three keys and
    nothing else: the keys of the dictionary after the call are the keys
    before it without the three; a second call changes nothing, so that
    a request sent again through the transport runner carries the same
    arguments; a dictionary without the three keys, the empty one among
    them, is left as it is. *)
Theorem cleanup_removes_the_three_keys_once (kwargs : Options) :
  dom (cleanup_kwargs_for_transport kwargs) =
    dom kwargs ∖ list_to_set kwargs_to_remove /\
  cleanup_kwargs_for_transport (cleanup_kwargs_for_transport kwargs) =
    cleanup_kwargs_for_transport kwargs /\
  (keys_absent kwargs -> cleanup_kwargs_for_transport kwargs = kwargs).
Proof.
  split; [| split].
  - apply set_eq. intros key.
    rewrite elem_of_difference, !elem_of_dom, elem_of_list_to_set.
    rewrite lookup_cleanup_kwargs. unfold internal_key.
    destruct (decide (key ∈ kwargs_to_remove)) as [Hin | Hout].
    + split; [by intros [? ?] | by intros [_ ?]].
    + split; [by intros ? | by intros [? _]].
  - apply cleanup_kwargs_idemp.
  - intros Habs. apply map_eq. intros key. rewrite lookup_cleanup_kwargs.
    destruct (decide (internal_key key)) as [Hin | Hout]; [| done].
    by rewrite Habs.
Qed.

Lemma cleanup_removes_the_three_keys_once_witness :
  keys_absent (<["timeout" := VInt 30]> ∅ : Options) /\
  cleanup_kwargs_for_transport (<["timeout" := VInt 30]> ∅) =
    <["timeout" := VInt 30]> ∅.
Proof.
  assert (keys_absent (<["timeout" := VInt 30]> ∅ : Options)) as Habs.
  { intros key Hk. unfold internal_key, kwargs_to_remove in Hk.
    rewrite !elem_of_cons, elem_of_nil in Hk.
    destruct Hk as [-> | [-> | [-> | []]]]; reflexivity. }
  split; [exact Habs |].
  exact (proj2 (proj2 (cleanup_removes_the_three_keys_once _)) Habs).
Defined.

(** ** A chaining policy that answers by itself *)

Lemma run_prog_never_calls_next next1 next2 p m :
  never_calls_next p -> run_prog next1 p m = run_prog next2 p m.
Proof.
  intros Hp. revert m. induction Hp as [r | e | f k _ IH]; intros m; simpl.
  - done.
  - done.
  - apply IH.
Qed.

Lemma emits_run_prog_never_calls_next P next_send p :
  never_calls_next p -> emits P (run_prog next_send p).
Proof.
  intros Hp. induction Hp as [r | e | f k _ IH]; simpl.
  - apply emits_ret.
  - by intros m m' evs r [= <- <- <-].
  - intros m m' evs r H. by eapply IH.
Qed.

Lemma emits_try {A} P (c : M A) handler :
  emits P c -> emits P handler ->
  emits P (try_except_Exception_reraise c handler).
Proof.
  intros Hc Hh m m' evs r H.
  apply try_except_Some in H
    as [(a & H & _) | [(e & H & _ & _) |
        (m1 & evs1 & e & evs2 & r2 & H1 & _ & H2 & -> & _)]].
  - by apply Hc in H.
  - by apply Hc in H.
  - apply Hc in H1. apply Hh in H2. by apply Forall_app.
Qed.

Lemma emits_impl {A} (P Q : Event -> Prop) (c : M A) :
  (forall ev, P ev -> Q ev) -> emits P c -> emits Q c.
Proof.
  intros HPQ Hc m m' evs r H. apply Hc in H.
  eapply Forall_impl; [exact H | exact HPQ].
Qed.

Lemma emits_nested_send policies tail request :
  emits (fun _ => False) (tail request) ->
  emits (hook_of policies (req_id (http_request request)))
        (nested_send policies tail request).
Proof.
  intros Ht. induction policies as [| p rest IH]; simpl.
  - eapply emits_impl; [| exact Ht]. done.
  - assert (forall ev, hook_of rest (req_id (http_request request)) ev ->
                       hook_of (p :: rest) (req_id (http_request request)) ev)
      as Hrest.
    { intros ev (q & Hq & Hev). exists q. split; [by right | done]. }
    assert (forall ev,
              ev = EvOnRequest (sp_name p) (req_id (http_request request)) \/
              ev = EvOnResponse (sp_name p) (req_id (http_request request)) \/
              ev = EvOnException (sp_name p) (req_id (http_request request)) ->
              hook_of (p :: rest) (req_id (http_request request)) ev) as Hp.
    { intros ev Hev. exists p. split; [by left | done]. }
    unfold SansIOHTTPPolicyRunner.send.
    apply emits_bind; [apply emits_await_result, Hp; by left |].
    intros _. apply emits_bind.
    + apply emits_try.
      * eapply emits_impl; [exact Hrest | exact IH].
      * apply emits_await_result, Hp. by right; right.
    + intros response.
      apply emits_bind; [apply emits_await_result, Hp; by right; left |].
      intros _. apply emits_ret.
Qed.

Lemma wrap_policies_app_sansio P1 rest n :
  exists nodes1,
    (Pipeline.wrap_policies ((ArgSansIO <$> P1) ++ rest) n).1 =
      nodes1 ++ (Pipeline.wrap_policies rest (n + length P1)).1 /\
    runners_around nodes1 P1.
Proof.
  revert n. induction P1 as [| p P1 IH]; intros n; simpl.
  - exists []. rewrite Nat.add_0_r. split; [done | constructor].
  - destruct (IH (S n)) as (nodes1 & Heq & Hr). simpl in Heq.
    destruct (Pipeline.wrap_policies _ (S n)) as [l n'].
    exists (RunnerNode n p :: nodes1). simpl in *. split.
    + rewrite Heq. by replace (n + S (length P1)) with (S (n + length P1)) by lia.
    + constructor; [by exists n | done].
Qed.

Lemma send_link_to_chaining_policy nodes1 P1 c nodes2 transport :
  runners_around nodes1 P1 ->
  (forall rq, never_calls_next (hp_send c rq)) ->
  forall request m fuel,
    linked (nexts m) (nodes1 ++ PolicyNode c :: nodes2) transport ->
    send_link (S (length nodes1 + fuel))
      (head_link (nodes1 ++ PolicyNode c :: nodes2) transport) request m =
    nested_send P1 (fun rq => run_prog (fun _ => stuck) (hp_send c rq))
      request m.
Proof.
  intros Hr Hc.
  induction Hr as [| nd p nodes1 P1 [n ->] _ IH]; intros request m fuel Hl.
  - simpl. by apply run_prog_never_calls_next.
  - cbn [app length head_link nested_send Nat.add]. rewrite send_link_runner.
    apply Runner_send_ext. intros m1 (Hnx & _).
    pose proof (linked_head _ _ _ _ Hl) as Hh. cbn [node_id] in Hh.
    rewrite (get_next_bind _
               (head_link (nodes1 ++ PolicyNode c :: nodes2) transport))
      by (by rewrite Hnx).
    apply IH. rewrite Hnx. by eapply linked_tail.
Qed.

(** X12.  A chaining policy that answers by itself.  In a pipeline whose
    policies are simple policies [P1], then a chaining policy whose
    [send] never calls [next.send], then any policies, every run goes as
    far as the chaining policy and no further: after the preparation of
    a multipart request, the only calls are hooks of the policies of
    [P1]; the transport is not called, and neither are the policies
    listed after the chaining policy. *)
Theorem chaining_policy_that_answers_hides_the_rest
    P1 c rest transport m0 request kwargs m m' evs r :
  let policies := (ArgSansIO <$> P1) ++ ArgHTTP c :: rest in
  let self := (Pipeline.__init__ transport policies m0).1 in
  NoDup (chaining_addrs policies) ->
  (forall rq, never_calls_next (hp_send c rq)) ->
  nexts m = nexts (Pipeline.__init__ transport policies m0).2 ->
  Pipeline.run self request kwargs m = Some (m', evs, r) ->
  exists evs_p evs_c,
    evs = evs_p ++ evs_c /\
    Forall prepare_event evs_p /\
    Forall (hook_of P1 (req_id request)) evs_c /\
    Forall not_transport_send evs.
Proof.
  intros policies self Hnd Hc Hnx Hrun.
  assert (exists evs_p evs_c,
             evs = evs_p ++ evs_c /\ Forall prepare_event evs_p /\
             Forall (hook_of P1 (req_id request)) evs_c)
    as (evs_p & evs_c & -> & Hp & Hh).
  { pose proof (init_linked transport policies m0 Hnd) as Hl.
    destruct (init_impl_policies transport policies m0) as [Himpl Htr].
    destruct (wrap_policies_app_sansio P1 (ArgHTTP c :: rest) (runners m0))
      as (nodes1 & Hwrap & Hr).
    fold policies in Hwrap. rewrite <- Himpl in Hwrap. fold self in Hwrap, Hl, Htr.
    simpl in Hwrap.
    destruct (Pipeline.wrap_policies rest (runners m0 + length P1))
      as [nodes2 n2]. simpl in Hwrap.
    unfold Pipeline.run in Hrun.
    apply bind_Some in Hrun
      as [(e & Hprep & ->) | (m1 & evs1 & [] & evs2 & Hprep & Hrun & ->)].
    - exists evs, []. rewrite app_nil_r. split; [done |].
      split; [by apply emits_prepare_multipart in Hprep | constructor].
    - exists evs1, evs2. split; [done |].
      split; [by apply emits_prepare_multipart in Hprep |].
      apply sound_prepare_multipart in Hprep as [(Hnx1 & _) _].
      apply bind_Some in Hrun
        as [(e & [=] & _) | (m2 & evs3 & ctx & evs4 & Hnew & Hrun & ->)].
      injection Hnew as <- <- <-. simpl.
      replace (Pipeline.first_node self)
        with (head_link (Pipeline._impl_policies self) transport) in Hrun
        by (unfold Pipeline.first_node, head_link; by rewrite Htr).
      rewrite Hwrap in Hrun.
      replace (S (length (nodes1 ++ PolicyNode c :: nodes2)))
        with (S (length nodes1 + S (length nodes2))) in Hrun
        by (rewrite length_app; simpl; lia).
      rewrite (send_link_to_chaining_policy nodes1 P1 c nodes2 transport Hr Hc)
        in Hrun
        by (simpl; rewrite Hnx1, Hnx, <- Hwrap; exact Hl).
      apply emits_nested_send in Hrun; [exact Hrun |].
      by apply emits_run_prog_never_calls_next. }
  exists evs_p, evs_c. split; [done | split; [done | split; [done |]]].
  apply Forall_app. split; [by apply prepare_event_not_send |].
  eapply Forall_impl; [exact Hh |].
  intros ev (p & _ & [-> | [-> | ->]]); done.
Qed.

Lemma chaining_policy_that_answers_hides_the_rest_witness :
  let policies := (ArgSansIO <$> [quiet_policy "a"]) ++
                  ArgHTTP (cache_policy 7) :: [ArgSansIO (quiet_policy "z")] in
  NoDup (chaining_addrs policies) /\
  events_of (run_built (answering_transport 200) policies (plain_request 1) ∅)
    = [EvOnRequest "a" 1; EvOnResponse "a" 1] /\
  Forall not_transport_send
    (events_of (run_built (answering_transport 200) policies
                  (plain_request 1) ∅)).
Proof.
  intros policies.
  assert (NoDup (chaining_addrs policies)) as Hnd
    by (simpl; apply NoDup_singleton).
  split; [exact Hnd |]. split; [vm_compute; reflexivity |].
  unfold run_built, built.
  destruct (Pipeline.run _ _ _ _) as [[[m' evs] r] |] eqn:Hrun;
    [| constructor].
  destruct (chaining_policy_that_answers_hides_the_rest
              [quiet_policy "a"] (cache_policy 7) [ArgSansIO (quiet_policy "z")]
              (answering_transport 200) empty_store (plain_request 1) ∅
              _ m' evs r Hnd (fun rq => never_calls_next_return _) eq_refl Hrun)
    as (evs_p & evs_c & _ & _ & _ & Hall).
  exact Hall.
Defined.

(** ** A chaining policy that hands the request on *)

Lemma run_prog_forwarding next_send (c : M PipelineResponse) m :
  bind (attempt c)
       (fun r => run_prog next_send
                   match r with Ok x => PReturn x | Raise e => PRaise e end) m =
  c m.
Proof.
  unfold bind, attempt.
  destruct (c m) as [[[m1 evs] [a | e]] |]; simpl; by rewrite ?app_nil_r.
Qed.

Lemma chain_send_app P1 P2 sender request m :
  nested_send P1 (chain_send P2 sender) request m =
  chain_send (P1 ++ P2) sender request m.
Proof.
  revert m. induction P1 as [| p P1 IH]; intros m; simpl; [done |].
  apply Runner_send_ext. intros m1 _. apply IH.
Qed.

Lemma send_link_through_forwarding nodes1 P1 addr nodes2 P2 transport :
  runners_around nodes1 P1 -> runners_around nodes2 P2 ->
  forall request m,
    linked (nexts m)
           (nodes1 ++ PolicyNode (forwarding_policy addr) :: nodes2) transport ->
    send_link (S (length nodes1 + S (length nodes2)))
      (head_link (nodes1 ++ PolicyNode (forwarding_policy addr) :: nodes2)
                 transport) request m =
    nested_send P1 (chain_send P2 transport) request m.
Proof.
  intros Hr1 Hr2.
  induction Hr1 as [| nd p nodes1 P1 [n ->] _ IH]; intros request m Hl.
  - cbn [app length head_link nested_send Nat.add].
    change (send_link (S (S (length nodes2)))
              (LinkNode (PolicyNode (forwarding_policy addr))) request)
      with (bind (attempt
                    (nx <- get_next (PolicyObj addr) ;;
                     match nx with
                     | Some l => send_link (S (length nodes2)) l request
                     | None => raise AttributeError
                     end))
                 (fun r => run_prog
                    (fun rq =>
                       nx <- get_next (PolicyObj addr) ;;
                       match nx with
                       | Some l => send_link (S (length nodes2)) l rq
                       | None => raise AttributeError
                       end)
                    match r with Ok x => PReturn x | Raise e => PRaise e end)).
    rewrite run_prog_forwarding.
    pose proof (linked_head _ _ _ _ Hl) as Hh. cbn [node_id hp_addr] in Hh.
    simpl in Hh.
    rewrite (get_next_bind _ (head_link nodes2 transport)) by done.
    apply (send_link_chain _ _ _ Hr2). by eapply linked_tail.
  - cbn [app length head_link nested_send Nat.add]. rewrite send_link_runner.
    apply Runner_send_ext. intros m1 (Hnx & _).
    pose proof (linked_head _ _ _ _ Hl) as Hh. cbn [node_id] in Hh.
    rewrite (get_next_bind _
               (head_link (nodes1 ++ PolicyNode (forwarding_policy addr)
                             :: nodes2) transport))
      by (by rewrite Hnx).
    apply IH. rewrite Hnx. by eapply linked_tail.
Qed.

(** X13.  A chaining policy that hands the request on.  In a pipeline
    whose policies are simple policies [P1], a chaining policy whose
    [send] is [return self.next.send(request)], and simple policies
    [P2], every run is the run of the nested sends of [P1] and [P2]
    around the transport: same store, same log, same outcome as if the
    chaining policy were not listed. *)
Theorem forwarding_policy_is_transparent
    P1 addr P2 transport m0 request kwargs m :
  let policies := (ArgSansIO <$> P1) ++
                  ArgHTTP (forwarding_policy addr) :: (ArgSansIO <$> P2) in
  let self := (Pipeline.__init__ transport policies m0).1 in
  nexts m = nexts (Pipeline.__init__ transport policies m0).2 ->
  Pipeline.run self request kwargs m =
  simple_run (P1 ++ P2) transport request kwargs m.
Proof.
  intros policies self Hnx.
  assert (NoDup (chaining_addrs policies)) as Hnd.
  { unfold policies. clear. induction P1 as [| p P1 IH]; simpl; [| done].
    rewrite chaining_addrs_sansio. apply NoDup_singleton. }
  pose proof (init_linked transport policies m0 Hnd) as Hl.
  destruct (init_impl_policies transport policies m0) as [Himpl Htr].
  destruct (wrap_policies_app_sansio P1
              (ArgHTTP (forwarding_policy addr) :: (ArgSansIO <$> P2))
              (runners m0)) as (nodes1 & Hwrap & Hr1).
  fold policies in Hwrap. rewrite <- Himpl in Hwrap.
  fold self in Hwrap, Hl, Htr. simpl in Hwrap.
  pose proof (wrap_sansio_runners P2 (runners m0 + length P1)) as Hr2.
  destruct (Pipeline.wrap_policies (ArgSansIO <$> P2) _) as [nodes2 n2].
  simpl in Hwrap, Hr2.
  unfold Pipeline.run, simple_run.
  apply bind_ext_frame; [apply sound_prepare_multipart |].
  intros _ m1 (Hnx1 & _). rewrite Htr.
  apply bind_ext_frame; [apply sound_new_context |].
  intros ctx m2 (Hnx2 & _).
  replace (Pipeline.first_node self)
    with (head_link (Pipeline._impl_policies self) transport)
    by (unfold Pipeline.first_node, head_link; by rewrite Htr).
  rewrite Hwrap.
  replace (S (length (nodes1 ++ PolicyNode (forwarding_policy addr) :: nodes2)))
    with (S (length nodes1 + S (length nodes2)))
    by (rewrite length_app; simpl; lia).
  rewrite (send_link_through_forwarding nodes1 P1 addr nodes2 P2 transport
             Hr1 Hr2)
    by (rewrite Hnx2, Hnx1, Hnx, <- Hwrap; exact Hl).
  apply chain_send_app.
Qed.

Lemma forwarding_policy_is_transparent_witness :
  events_of (run_built (answering_transport 200)
               ((ArgSansIO <$> [quiet_policy "a"]) ++
                ArgHTTP (forwarding_policy 7) ::
                (ArgSansIO <$> [quiet_policy "b"]))
               (plain_request 1) ∅) =
  [EvOnRequest "a" 1; EvOnRequest "b" 1; EvTransportSend "transport" 1 ∅;
   EvOnResponse "b" 1; EvOnResponse "a" 1].
Proof.
  unfold run_built, built.
  rewrite (forwarding_policy_is_transparent [quiet_policy "a"] 7
             [quiet_policy "b"] (answering_transport 200) empty_store
             (plain_request 1) ∅ _ eq_refl).
  vm_compute. reflexivity.
Defined.

(** * The claims on the order of the hooks and on the status code *)







(** * The claim on a failure before the send *)





(** * The claim on the preparation of multipart requests *)





(** * The claim on the option bag seen after the send *)




